(** * permuteseq: a cycle-walking Feistel cipher over integer ranges

    Shallow embedding of [permuteseq.c] and the properties of its
    cipher, its range validation and its four SQL entry points.

    C integers are mathematical integers ([Z]) with the wrap-around of each
    width written out.  Signed arithmetic wraps, as PostgreSQL and its
    extensions are built with [-fwrapv]; a right shift of a signed value is
    arithmetic; a left shift is the mathematical shift reduced to the width
    of its type.  The last convention decides [1 << hsz] for [hsz = 32],
    which C leaves undefined for a 32-bit [int]: here it is 0, and the mask
    of a 32-bit half block is [0xFFFFFFFF]. *)

From Stdlib Require Import ZArith Lia List Bool.
Import ListNotations.
Local Open Scope Z_scope.

(** ** Machine integers *)

Definition to_uint32 (x : Z) : Z := x mod 2 ^ 32.
Definition to_uint64 (x : Z) : Z := x mod 2 ^ 64.
Definition to_int32 (x : Z) : Z := (x + 2 ^ 31) mod 2 ^ 32 - 2 ^ 31.
Definition to_int64 (x : Z) : Z := (x + 2 ^ 63) mod 2 ^ 64 - 2 ^ 63.

Definition PG_INT64_MIN : Z := - 0x7FFFFFFFFFFFFFFF - 1.
Definition PG_INT64_MAX : Z := 0x7FFFFFFFFFFFFFFF.

(** [is_int64 x]: [x] is a value of the C type [int64]. *)
Definition is_int64 (x : Z) : Prop := PG_INT64_MIN <= x <= PG_INT64_MAX.

Definition in_int64 (x : Z) : bool := (PG_INT64_MIN <=? x) && (x <=? PG_INT64_MAX).

(** Signed 64-bit operations that report whether they wrapped: the value
    is the wrapped one, the flag is [true] when the exact result does not
    fit an [int64]. *)
Definition ov (A : Type) : Type := (A * bool)%type.

Definition ov_ret {A} (a : A) : ov A := (a, false).

Definition ov_bind {A B} (m : ov A) (k : A -> ov B) : ov B :=
  let '(a, o1) := m in
  let '(b, o2) := k a in
  (b, o1 || o2).

Definition int64_add (a b : Z) : ov Z := (to_int64 (a + b), negb (in_int64 (a + b))).
Definition int64_sub (a b : Z) : ov Z := (to_int64 (a - b), negb (in_int64 (a - b))).

(** ** What the extension takes from PostgreSQL

    [hash_uint32] (access/hash.h), [pg_sequence_parameters] and
    [nextval_oid] (commands/sequence.h) are not part of the source file;
    the development is parameterised over them.  A sequence call may fail
    ([None]): the failure is PostgreSQL's own error, passed on. *)

Class Host : Type := {
  hash_uint32 : Z -> Z;
  Database : Type;
  pg_sequence_parameters : Database -> Z -> option (Z * Z);
  nextval_oid : Database -> Z -> option (Z * Database)
}.

Definition DatumGetUInt32 (d : Z) : Z := to_uint32 d.

(** ** The cipher *)

Definition walk_max : Z := 1000000.
Definition NR : Z := 9.

(** The local variables [l1], [r1], [l2], [r2] of [cycle_walking_cipher]. *)
Record halves : Type := Halves { l1 : Z; r1 : Z; l2 : Z; r2 : Z }.

(** [while (hsz < 32 && ((uint64)1<<(2*hsz)) < interval) hsz++;] *)
Fixpoint hsz_loop (fuel : nat) (hsz interval : Z) : Z :=
  match fuel with
  | O => hsz
  | S fuel' =>
      if (hsz <? 32) && (to_uint64 (Z.shiftl 1 (2 * hsz)) <? interval)
      then hsz_loop fuel' (hsz + 1) interval
      else hsz
  end.

Definition half_block_size (interval : Z) : Z := hsz_loop 32 1 interval.

(** [mask = (1 << hsz) - 1;] computed in [int], stored in a [uint32].  For
    [hsz = 32] the shift is undefined in C and the value here, [0xFFFFFFFF],
    is a convention (a shift that masks its count gives the mask 0
    instead); the properties that depend on the value of the mask are
    stated for [hsz <= 31], that is for ranges of at most 2^62 values. *)
Definition half_block_mask (hsz : Z) : Z :=
  to_uint32 (to_int32 (to_int32 (Z.shiftl 1 hsz) - 1)).

(** The index [direction==0 ? i : NR-1-i]. *)
Definition subkey_index (direction i : Z) : Z :=
  if direction =? 0 then i else NR - 1 - i.

(** [Ki = crypt_key >> ((hsz * j) & 0x3f);  Ki += j;] with [Ki] a [uint32]. *)
Definition round_subkey (crypt_key hsz direction i : Z) : Z :=
  let j := subkey_index direction i in
  let Ki := to_uint32 (Z.shiftr crypt_key (Z.land (to_uint32 (hsz * j)) 0x3f)) in
  to_uint32 (Ki + j).

Section Cipher.

Context {host : Host}.

(** The key scrambling of [cycle_walking_cipher]; a [Datum] is a 64-bit
    unsigned word. *)
Definition scramble_key (crypt_key : Z) : Z :=
  Z.lor (to_uint64 (hash_uint32 (to_uint32 (Z.land crypt_key 0xffffffff))))
        (to_uint64 (Z.shiftl
           (to_uint64 (hash_uint32 (to_uint32 (Z.land (Z.shiftr crypt_key 32) 0xffffffff))))
           32)).

(** The body of the [for] loop: one Feistel round. *)
Definition feistel_round (hsz mask crypt_key direction i : Z) (s : halves) : halves :=
  let l2' := r1 s in
  let Ki := round_subkey crypt_key hsz direction i in
  let r2' := Z.land (Z.lxor (Z.lxor (l1 s) (DatumGetUInt32 (hash_uint32 (r1 s))))
                            (DatumGetUInt32 (hash_uint32 Ki)))
                    mask in
  {| l1 := l2'; r1 := r2'; l2 := l2'; r2 := r2' |}.

(** [for (i = 0; i < NR; i++)], entered at [i]. *)
Fixpoint feistel_loop (fuel : nat) (hsz mask crypt_key direction i : Z) (s : halves)
  : halves :=
  match fuel with
  | O => s
  | S fuel' =>
      if i <? NR
      then feistel_loop fuel' hsz mask crypt_key direction (i + 1)
             (feistel_round hsz mask crypt_key direction i s)
      else s
  end.

Definition feistel_network (hsz mask crypt_key direction : Z) (s : halves) : halves :=
  feistel_loop (Z.to_nat NR) hsz mask crypt_key direction 0 s.

(** [result = ((uint64)r1 << hsz) | l1;] *)
Definition reassemble (hsz : Z) (s : halves) : Z :=
  Z.lor (to_uint64 (Z.shiftl (r1 s) hsz)) (l1 s).

(** [l1 = r2; r1 = l2;] *)
Definition swap_halves (s : halves) : halves :=
  {| l1 := r2 s; r1 := l2 s; l2 := l2 s; r2 := r2 s |}.

(** The [do ... while] loop.  [limit] is [maxval - minval] converted to
    [uint64] for the comparison with [result].  The loop leaves with the
    last [result] and the final [walk_count]; [None] only when the fuel of
    the model is used up. *)
Fixpoint cycle_walk (fuel : nat) (hsz mask crypt_key direction limit : Z)
                    (s : halves) (walk_count : Z) : option (Z * Z) :=
  match fuel with
  | O => None
  | S fuel' =>
      let s' := feistel_network hsz mask crypt_key direction s in
      let result := reassemble hsz s' in
      let s'' := swap_halves s' in
      if result >? limit then
        if walk_count <? walk_max
        then cycle_walk fuel' hsz mask crypt_key direction limit s'' (walk_count + 1)
        else Some (result, walk_count + 1)
      else Some (result, walk_count)
  end.

Inductive error : Type :=
| RangeTooSmall
| ValueOutOfRange
| CycleLimitExceeded
| SequenceFailure.

Definition walk_fuel : nat := S (S (Z.to_nat walk_max)).

(** [uint64 interval = maxval - minval + 1;] *)
Definition cipher_interval (minval maxval : Z) : Z :=
  to_uint64 (to_int64 (to_int64 (maxval - minval) + 1)).

(** [l1 = (value - minval) >> hsz;  r1 = (value - minval) & mask;] *)
Definition initial_halves (hsz mask minval value : Z) : halves :=
  let offset := to_int64 (value - minval) in
  {| l1 := to_uint32 (Z.shiftr offset hsz);
     r1 := to_uint32 (Z.land offset mask);
     l2 := 0; r2 := 0 |}.

(** The right operand of [result > maxval - minval], converted to [uint64]
    as the comparison does. *)
Definition walk_limit (minval maxval : Z) : Z :=
  to_uint64 (to_int64 (maxval - minval)).

Definition cycle_walking_cipher (minval maxval value crypt_key direction : Z)
  : error + Z :=
  let interval := cipher_interval minval maxval in
  let hsz := half_block_size interval in
  let mask := half_block_mask hsz in
  let crypt_key := scramble_key crypt_key in
  let s := initial_halves hsz mask minval value in
  match cycle_walk walk_fuel hsz mask crypt_key direction
                   (walk_limit minval maxval) s 0 with
  | None => inl CycleLimitExceeded
  | Some (result, walk_count) =>
      if walk_count >=? walk_max then inl CycleLimitExceeded
      else inr (to_int64 (to_uint64 (to_uint64 minval + result)))
  end.

(** ** Range validation *)

(** [check_sequence_range], with the wrap flag of the signed operations it
    evaluates ([&&] and [||] evaluate their right operand only when needed). *)
Definition check_sequence_range (minv maxv : Z) : ov bool :=
  ov_bind (if minv >? 0
           then ov_bind (int64_add PG_INT64_MIN minv) (fun s => ov_ret (maxv <? s))
           else ov_ret false) (fun c1 =>
  if c1 then ov_ret true else
  ov_bind (if minv <? 0
           then ov_bind (int64_add PG_INT64_MAX minv) (fun s => ov_ret (maxv >? s))
           else ov_ret false) (fun c2 =>
  if c2 then ov_ret true else
  ov_bind (int64_sub maxv minv) (fun d => ov_ret (d >=? 4 - 1)))).

(** The test [maxval - minval < 4] of [reverse_permute]. *)
Definition reverse_permute_too_short (minval maxval : Z) : ov bool :=
  ov_bind (int64_sub maxval minval) (fun d => ov_ret (d <? 4)).

(** ** The SQL entry points

    A call runs on a [world]: the database holding the sequences, and a
    record of the cipher invocations made so far, kept so that the order of
    validation and cipher work can be stated.  [ereport(ERROR, ...)] leaves
    the function with an [error]; what was done before it stays done. *)

Record cipher_call : Type := CipherCall {
  call_minval : Z; call_maxval : Z; call_value : Z; call_key : Z; call_direction : Z
}.

Record world : Type := World { db : Database; cipher_runs : list cipher_call }.

Definition M (A : Type) : Type := world -> world * (error + A).

Definition ret {A} (a : A) : M A := fun w => (w, inr a).

Definition ereport {A} (e : error) : M A := fun w => (w, inl e).

Definition bind {A B} (m : M A) (k : A -> M B) : M B :=
  fun w => match m w with
           | (w', inl e) => (w', inl e)
           | (w', inr a) => k a w'
           end.

Notation "x <- m ;; k" := (bind m (fun x => k))
  (at level 61, m at next level, right associativity).

Definition sequence_parameters (seq_oid : Z) : M (Z * Z) :=
  fun w => match pg_sequence_parameters (db w) seq_oid with
           | Some p => (w, inr p)
           | None => (w, inl SequenceFailure)
           end.

Definition sequence_nextval (seq_oid : Z) : M Z :=
  fun w => match nextval_oid (db w) seq_oid with
           | Some (v, d) => ({| db := d; cipher_runs := cipher_runs w |}, inr v)
           | None => (w, inl SequenceFailure)
           end.

Definition run_cipher (minval maxval value crypt_key direction : Z) : M Z :=
  fun w =>
    ({| db := db w;
        cipher_runs := CipherCall minval maxval value crypt_key direction
                         :: cipher_runs w |},
     cycle_walking_cipher minval maxval value crypt_key direction).

Definition permute_nextval (seq_oid crypt_key : Z) : M Z :=
  params <- sequence_parameters seq_oid ;;
  let minval := fst params in
  let maxval := snd params in
  if negb (fst (check_sequence_range minval maxval)) then ereport RangeTooSmall else
  nextval <- sequence_nextval seq_oid ;;
  if (nextval <? minval) || (nextval >? maxval) then ereport ValueOutOfRange else
  run_cipher minval maxval nextval (to_uint64 crypt_key) 0.

Definition reverse_permute (seq_oid value crypt_key : Z) : M Z :=
  params <- sequence_parameters seq_oid ;;
  let minval := fst params in
  let maxval := snd params in
  if fst (reverse_permute_too_short minval maxval) then ereport RangeTooSmall else
  if (value <? minval) || (value >? maxval) then ereport ValueOutOfRange else
  run_cipher minval maxval value (to_uint64 crypt_key) 1.

Definition range_encrypt_element (clearval minval maxval crypt_key : Z) : M Z :=
  if (clearval <? minval) || (clearval >? maxval) then ereport ValueOutOfRange else
  run_cipher minval maxval clearval (to_uint64 crypt_key) 0.

Definition range_decrypt_element (val minval maxval crypt_key : Z) : M Z :=
  if (val <? minval) || (val >? maxval) then ereport ValueOutOfRange else
  run_cipher minval maxval val (to_uint64 crypt_key) 1.

End Cipher.

Arguments M {host} A.

(** ** An instance for concrete evaluation

    The mixing function follows [hash_uint32] of PostgreSQL's hashfn.c
    (the final mix of lookup3); the database holds one ascending sequence
    without cycling. *)

Definition rot (x k : Z) : Z :=
  to_uint32 (Z.lor (to_uint32 (Z.shiftl x k)) (Z.shiftr x (32 - k))).

Definition mix_final (a b c : Z) : Z :=
  let c := to_uint32 (Z.lxor c b - rot b 14) in
  let a := to_uint32 (Z.lxor a c - rot c 11) in
  let b := to_uint32 (Z.lxor b a - rot a 25) in
  let c := to_uint32 (Z.lxor c b - rot b 16) in
  let a := to_uint32 (Z.lxor a c - rot c 4) in
  let b := to_uint32 (Z.lxor b a - rot a 14) in
  let c := to_uint32 (Z.lxor c b - rot b 24) in
  c.

Definition pg_hash_uint32 (k : Z) : Z :=
  let init := to_uint32 (0x9e3779b9 + 4 + 3923095) in
  mix_final (to_uint32 (init + k)) init init.

Record plain_sequence : Type := PlainSequence {
  seq_minval : Z; seq_maxval : Z; seq_next : Z
}.

Definition plain_nextval (s : plain_sequence) : option (Z * plain_sequence) :=
  if seq_next s >? seq_maxval s then None
  else Some (seq_next s,
             {| seq_minval := seq_minval s; seq_maxval := seq_maxval s;
                seq_next := seq_next s + 1 |}).

Definition sample_host : Host := {|
  hash_uint32 := pg_hash_uint32;
  Database := plain_sequence;
  pg_sequence_parameters := fun s _ => Some (seq_minval s, seq_maxval s);
  nextval_oid := fun s _ => plain_nextval s
|}.

Definition sample_world (minval maxval next : Z) : @world sample_host :=
  {| db := PlainSequence minval maxval next : @Database sample_host;
     cipher_runs := [] |}.


(** ** The cipher on pairs (left half, right half)

    The walk only hands [l1] and [r1] from one attempt to the next; these
    definitions restate the network on such pairs, with the round subkeys
    as a list. *)

Definition swap_pair (p : Z * Z) : Z * Z := (snd p, fst p).

Definition halves_pair (s : halves) : Z * Z := (l1 s, r1 s).

Definition pair_halves (p : Z * Z) : halves :=
  {| l1 := fst p; r1 := snd p; l2 := fst p; r2 := snd p |}.

(** Both halves fit in [hsz] bits. *)
Definition in_block (hsz : Z) (p : Z * Z) : Prop :=
  0 <= fst p < 2 ^ hsz /\ 0 <= snd p < 2 ^ hsz.

Definition round_indices : list Z := [0; 1; 2; 3; 4; 5; 6; 7; 8].

Definition subkeys (crypt_key hsz direction : Z) : list Z :=
  map (round_subkey crypt_key hsz direction) round_indices.

Section PairCipher.

Context {host : Host}.

(** One round, given its subkey. *)
Definition keyed_round (hsz Ki : Z) (p : Z * Z) : Z * Z :=
  (snd p,
   Z.land (Z.lxor (Z.lxor (fst p) (DatumGetUInt32 (hash_uint32 (snd p))))
                  (DatumGetUInt32 (hash_uint32 Ki)))
          (2 ^ hsz - 1)).

Definition keyed_rounds (hsz : Z) (ks : list Z) (p : Z * Z) : Z * Z :=
  fold_left (fun q k => keyed_round hsz k q) ks p.

(** The pair handed to the next walking attempt. *)
Definition attempt (hsz crypt_key direction : Z) (p : Z * Z) : Z * Z :=
  swap_pair (keyed_rounds hsz (subkeys crypt_key hsz direction) p).

End PairCipher.

(** [result] of an attempt, read off the pair it hands on. *)
Definition pair_result (hsz : Z) (q : Z * Z) : Z :=
  Z.lor (to_uint64 (Z.shiftl (fst q) hsz)) (snd q).

(** An offset cut into its two halves. *)
Definition split_offset (hsz offset : Z) : Z * Z :=
  (offset / 2 ^ hsz, offset mod 2 ^ hsz).

(** The first value among [f a], [f (f a)], ... that satisfies [hit], looking
    at no more than [n] of them. *)
Fixpoint first_hit {A : Type} (f : A -> A) (hit : A -> bool) (n : nat) (a : A)
  : option A :=
  match n with
  | O => None
  | S n' => let a' := f a in if hit a' then Some a' else first_hit f hit n' a'
  end.

(** ** The cycle-walking driver as the specification words it

    Run the network once over the current halves; a reassembled result
    below [range_size] is the final offset; otherwise the output is fed back
    in.  No more than [iterations] runs are made; beyond them the walk
    fails with [CycleLimitExceeded]. *)

Section SpecifiedWalk.

Context {host : Host}.

Fixpoint bounded_walk (iterations : nat) (hsz mask crypt_key direction range_size : Z)
                      (s : halves) : error + Z :=
  match iterations with
  | O => inl CycleLimitExceeded
  | S n =>
      let s' := feistel_network hsz mask crypt_key direction s in
      let result := reassemble hsz s' in
      if result <? range_size then inr result
      else bounded_walk n hsz mask crypt_key direction range_size (swap_halves s')
  end.

End SpecifiedWalk.

(** A range the cipher can represent: bounds in [int64], not empty, and
    an interval size that fits the [uint64] it is stored in. *)
Definition representable_range (minval maxval : Z) : Prop :=
  is_int64 minval /\ is_int64 maxval /\ minval <= maxval /\
  maxval - minval + 1 < 2 ^ 64.

(** A range of at most 2^62 values, with bounds in [int64]: the
    half-block width is then at most 31 and the shift computing the mask
    is within the width of an [int]. *)
Definition moderate_range (minval maxval : Z) : Prop :=
  is_int64 minval /\ is_int64 maxval /\ minval <= maxval /\
  maxval - minval + 1 <= 2 ^ 62.

(** ** Statements of the specification, as it words them *)

(** The half-block width: the smallest integer of at least 1, capped at 32,
    whose working domain [2 ^ (2 * hsz)] covers the interval; the domain is
    then at least the interval size and below four times it. *)
Definition width_as_specified (minval maxval : Z) : Prop :=
  let interval_size := maxval - minval + 1 in
  let hsz := half_block_size (cipher_interval minval maxval) in
  1 <= hsz <= 32 /\
  (hsz < 32 -> interval_size <= 2 ^ (2 * hsz)) /\
  (forall h, 1 <= h -> interval_size <= 2 ^ (2 * h) -> hsz <= h) /\
  interval_size <= 2 ^ (2 * hsz) /\
  2 ^ (2 * hsz) < 4 * interval_size.

(** A window of [width] bits of the 64-bit key, starting at bit [start] and
    wrapping around bit 63. *)
Definition key_window (crypt_key start width : Z) : Z :=
  Z.lor (Z.shiftr crypt_key start) (to_uint64 (Z.shiftl crypt_key (64 - start)))
  mod 2 ^ width.

(** The round subkey: the window of [hsz] bits at bit [(hsz * j) mod 64],
    plus [j]. *)
Definition subkey_as_specified (crypt_key hsz direction i : Z) : Z :=
  let j := subkey_index direction i in
  to_uint32 (key_window crypt_key ((hsz * j) mod 64) hsz + j).

(** * Properties *)

(** ** Machine integers *)

Lemma to_uint32_range (x : Z) : 0 <= to_uint32 x < 2 ^ 32.
Proof. unfold to_uint32. apply Z.mod_pos_bound. lia. Qed.

Lemma to_uint64_range (x : Z) : 0 <= to_uint64 x < 2 ^ 64.
Proof. unfold to_uint64. apply Z.mod_pos_bound. lia. Qed.

Lemma to_uint32_small (x : Z) : 0 <= x < 2 ^ 32 -> to_uint32 x = x.
Proof. intros Hx. unfold to_uint32. now apply Z.mod_small. Qed.

Lemma to_uint64_small (x : Z) : 0 <= x < 2 ^ 64 -> to_uint64 x = x.
Proof. intros Hx. unfold to_uint64. now apply Z.mod_small. Qed.

Lemma to_int64_small (x : Z) : is_int64 x -> to_int64 x = x.
Proof.
  unfold is_int64, PG_INT64_MIN, PG_INT64_MAX, to_int64. intros Hx.
  rewrite Z.mod_small; lia.
Qed.

Lemma to_int64_range (x : Z) : is_int64 (to_int64 x).
Proof.
  unfold is_int64, PG_INT64_MIN, PG_INT64_MAX, to_int64.
  pose proof (Z.mod_pos_bound (x + 2 ^ 63) (2 ^ 64)). lia.
Qed.

Lemma to_uint64_to_int64 (x : Z) : to_uint64 (to_int64 x) = to_uint64 x.
Proof.
  unfold to_uint64, to_int64.
  rewrite Zminus_mod_idemp_l. f_equal. lia.
Qed.

Lemma to_int64_to_uint64 (x : Z) : to_int64 (to_uint64 x) = to_int64 x.
Proof.
  unfold to_uint64, to_int64.
  rewrite Zplus_mod_idemp_l. reflexivity.
Qed.

Lemma to_uint64_add_l (x y : Z) : to_uint64 (to_uint64 x + y) = to_uint64 (x + y).
Proof. unfold to_uint64. apply Zplus_mod_idemp_l. Qed.

Lemma to_int64_add_l (x y : Z) : to_int64 (to_int64 x + y) = to_int64 (x + y).
Proof.
  unfold to_int64.
  replace ((x + 2 ^ 63) mod 2 ^ 64 - 2 ^ 63 + y + 2 ^ 63)
    with ((x + 2 ^ 63) mod 2 ^ 64 + y) by lia.
  rewrite Zplus_mod_idemp_l. do 2 f_equal. lia.
Qed.

Lemma in_int64_spec (x : Z) : in_int64 x = true <-> is_int64 x.
Proof. unfold in_int64, is_int64. rewrite andb_true_iff, !Z.leb_le. tauto. Qed.

Lemma pow2_pos (n : Z) : 0 <= n -> 0 < 2 ^ n.
Proof. intros Hn. apply Z.pow_pos_nonneg; lia. Qed.

Lemma pow2_double (h : Z) : 0 <= h -> 2 ^ (2 * h) = 2 ^ h * 2 ^ h.
Proof. intros Hh. replace (2 * h) with (h + h) by lia. apply Z.pow_add_r; lia. Qed.

Lemma pow2_le_mono (a b : Z) : 0 <= a <= b -> 2 ^ a <= 2 ^ b.
Proof. intros Hab. apply Z.pow_le_mono_r; lia. Qed.

Lemma pow2_lt_mono (a b : Z) : 0 <= a < b -> 2 ^ a < 2 ^ b.
Proof. intros Hab. apply Z.pow_lt_mono_r; lia. Qed.

(** ** The half-block width *)

Lemma uint64_one_shiftl (h : Z) :
  1 <= h < 32 -> to_uint64 (Z.shiftl 1 (2 * h)) = 2 ^ (2 * h).
Proof.
  intros Hh. rewrite Z.shiftl_1_l. apply to_uint64_small.
  split; [apply Z.lt_le_incl, pow2_pos; lia | apply pow2_lt_mono; lia].
Qed.

Lemma hsz_loop_spec (fuel : nat) :
  forall hsz interval,
    1 <= hsz <= 32 ->
    32 - hsz < Z.of_nat fuel ->
    (forall h, 1 <= h < hsz -> 2 ^ (2 * h) < interval) ->
    let r := hsz_loop fuel hsz interval in
    hsz <= r <= 32 /\
    (r < 32 -> interval <= 2 ^ (2 * r)) /\
    (forall h, 1 <= h < r -> 2 ^ (2 * h) < interval).
Proof.
  induction fuel as [|fuel IH]; intros hsz interval Hh Hfuel Hbelow;
    cbn [hsz_loop].
  - lia.
  - destruct (hsz <? 32) eqn:E32; cbn [andb].
    + apply Z.ltb_lt in E32.
      rewrite uint64_one_shiftl by lia.
      destruct (2 ^ (2 * hsz) <? interval) eqn:Elt.
      * apply Z.ltb_lt in Elt.
        destruct (IH (hsz + 1) interval) as (Hr & Hge & Hmin); try lia.
        { intros h Hh'. destruct (Z.eq_dec h hsz) as [->|]; [assumption|].
          apply Hbelow. lia. }
        repeat split; try lia; assumption.
      * apply Z.ltb_ge in Elt. repeat split; try lia; assumption.
    + apply Z.ltb_ge in E32. repeat split; try lia; assumption.
Qed.

Lemma half_block_size_spec (interval : Z) :
  let r := half_block_size interval in
  1 <= r <= 32 /\
  (r < 32 -> interval <= 2 ^ (2 * r)) /\
  (forall h, 1 <= h < r -> 2 ^ (2 * h) < interval).
Proof.
  unfold half_block_size. apply hsz_loop_spec; cbn; lia.
Qed.

Lemma cipher_interval_exact (minval maxval : Z) :
  is_int64 minval -> is_int64 maxval -> minval <= maxval ->
  maxval - minval + 1 < 2 ^ 64 ->
  cipher_interval minval maxval = maxval - minval + 1.
Proof.
  unfold cipher_interval, is_int64, PG_INT64_MIN, PG_INT64_MAX.
  intros Hmin Hmax Hle Hfull.
  rewrite to_int64_add_l, to_uint64_to_int64. apply to_uint64_small. lia.
Qed.

Lemma walk_limit_exact (minval maxval : Z) :
  is_int64 minval -> is_int64 maxval -> minval <= maxval ->
  walk_limit minval maxval = maxval - minval.
Proof.
  unfold walk_limit, is_int64, PG_INT64_MIN, PG_INT64_MAX.
  intros Hmin Hmax Hle.
  rewrite to_uint64_to_int64. apply to_uint64_small. lia.
Qed.

Lemma half_block_mask_ones (hsz : Z) :
  0 <= hsz <= 32 -> half_block_mask hsz = 2 ^ hsz - 1.
Proof.
  intros Hh. unfold half_block_mask, to_uint32, to_int32.
  rewrite Z.shiftl_1_l.
  pose proof (pow2_pos hsz ltac:(lia)) as Hpos.
  pose proof (pow2_le_mono hsz 32 ltac:(lia)) as Hle.
  replace (((2 ^ hsz + 2 ^ 31) mod 2 ^ 32 - 2 ^ 31 - 1 + 2 ^ 31) mod 2 ^ 32 - 2 ^ 31)
    with ((2 ^ hsz - 1 + 2 ^ 31) mod 2 ^ 32 - 2 ^ 31).
  - rewrite Zminus_mod_idemp_l.
    replace (2 ^ hsz - 1 + 2 ^ 31 - 2 ^ 31) with (2 ^ hsz - 1) by lia.
    apply Z.mod_small. lia.
  - f_equal.
    replace ((2 ^ hsz + 2 ^ 31) mod 2 ^ 32 - 2 ^ 31 - 1 + 2 ^ 31)
      with ((2 ^ hsz + 2 ^ 31) mod 2 ^ 32 + (- 1)) by lia.
    rewrite Zplus_mod_idemp_l. f_equal. lia.
Qed.

Lemma land_mask_mod (x hsz : Z) : 0 <= hsz -> Z.land x (2 ^ hsz - 1) = x mod 2 ^ hsz.
Proof.
  intros Hh. rewrite <- Z.land_ones by assumption.
  f_equal. rewrite Z.ones_equiv. lia.
Qed.

Lemma land_mask_range (x hsz : Z) : 0 <= hsz -> 0 <= Z.land x (2 ^ hsz - 1) < 2 ^ hsz.
Proof.
  intros Hh. rewrite land_mask_mod by assumption.
  apply Z.mod_pos_bound, pow2_pos; assumption.
Qed.

Lemma shiftl_lor_add (hi lo hsz : Z) :
  0 <= hsz -> 0 <= lo < 2 ^ hsz -> Z.lor (Z.shiftl hi hsz) lo = hi * 2 ^ hsz + lo.
Proof.
  intros Hh Hlo.
  rewrite <- (Z.shiftl_mul_pow2 hi hsz) by assumption.
  rewrite <- Z.add_lor_land.
  replace (Z.land (Z.shiftl hi hsz) lo) with 0; [lia|].
  symmetry. apply Z.bits_inj'. intros n Hn.
  rewrite Z.land_spec, Z.bits_0.
  destruct (Z.lt_ge_cases n hsz) as [Hlt|Hge].
  - rewrite Z.shiftl_spec_low by assumption. reflexivity.
  - rewrite <- (Z.mod_small lo (2 ^ hsz)) by assumption.
    rewrite Z.mod_pow2_bits_high by lia. apply andb_false_r.
Qed.

(** ** Round subkeys *)

Lemma subkey_index_encrypt (i : Z) : subkey_index 0 i = i.
Proof. reflexivity. Qed.

Lemma subkey_index_decrypt (direction i : Z) :
  direction <> 0 -> subkey_index direction i = NR - 1 - i.
Proof.
  intros Hd. unfold subkey_index.
  destruct (direction =? 0) eqn:E; [apply Z.eqb_eq in E; contradiction | reflexivity].
Qed.

Lemma subkey_index_mirror (i : Z) : subkey_index 1 i = subkey_index 0 (NR - 1 - i).
Proof. reflexivity. Qed.

Lemma round_subkey_unfold (crypt_key hsz direction i : Z) :
  0 <= hsz <= 32 -> 0 <= i < NR ->
  let j := subkey_index direction i in
  round_subkey crypt_key hsz direction i
  = ((crypt_key / 2 ^ ((hsz * j) mod 64)) mod 2 ^ 32 + j) mod 2 ^ 32.
Proof.
  intros Hh Hi j.
  assert (Hj : 0 <= j < NR).
  { subst j. unfold subkey_index, NR in *. destruct (direction =? 0); lia. }
  unfold round_subkey. fold j. unfold to_uint32, NR in *.
  rewrite (Z.mod_small (hsz * j)) by nia.
  change 0x3f with (Z.ones 6). rewrite Z.land_ones by lia.
  change (2 ^ 6) with 64.
  rewrite Z.shiftr_div_pow2 by (apply Z.mod_pos_bound; lia).
  reflexivity.
Qed.

(** ** The Feistel network on pairs *)

Lemma land_lxor_cancel (l a b m : Z) :
  Z.land (Z.lxor (Z.lxor (Z.land (Z.lxor (Z.lxor l a) b) m) a) b) m = Z.land l m.
Proof.
  apply Z.bits_inj'. intros n Hn.
  rewrite !Z.land_spec, !Z.lxor_spec, Z.land_spec, !Z.lxor_spec.
  destruct (Z.testbit l n), (Z.testbit a n), (Z.testbit b n), (Z.testbit m n);
    reflexivity.
Qed.

Lemma swap_pair_involutive (p : Z * Z) : swap_pair (swap_pair p) = p.
Proof. destruct p; reflexivity. Qed.

Lemma swap_pair_in_block (hsz : Z) (p : Z * Z) :
  in_block hsz p -> in_block hsz (swap_pair p).
Proof. intros [Hl Hr]. split; assumption. Qed.

Lemma subkeys_reversed (crypt_key hsz : Z) :
  subkeys crypt_key hsz 1 = rev (subkeys crypt_key hsz 0).
Proof. reflexivity. Qed.

Section FeistelPairs.

Context {host : Host}.
Variables hsz crypt_key : Z.
Hypothesis hsz_range : 0 <= hsz <= 32.

Lemma feistel_round_pair (direction i : Z) (s : halves) :
  feistel_round hsz (2 ^ hsz - 1) crypt_key direction i s
  = pair_halves (keyed_round hsz (round_subkey crypt_key hsz direction i) (halves_pair s)).
Proof. reflexivity. Qed.

Lemma feistel_network_unroll (mask direction : Z) (s : halves) :
  let round := feistel_round hsz mask crypt_key direction in
  feistel_network hsz mask crypt_key direction s
  = round 8 (round 7 (round 6 (round 5 (round 4 (round 3 (round 2 (round 1 (round 0 s)))))))).
Proof. reflexivity. Qed.

Lemma feistel_network_pair (direction : Z) (s : halves) :
  feistel_network hsz (2 ^ hsz - 1) crypt_key direction s
  = pair_halves (keyed_rounds hsz (subkeys crypt_key hsz direction) (halves_pair s)).
Proof.
  rewrite feistel_network_unroll. cbv zeta.
  rewrite !feistel_round_pair. reflexivity.
Qed.

Lemma keyed_round_in_block (k : Z) (p : Z * Z) :
  in_block hsz p -> in_block hsz (keyed_round hsz k p).
Proof.
  intros [_ Hr]. split; [exact Hr|].
  apply land_mask_range. lia.
Qed.

Lemma keyed_rounds_in_block (ks : list Z) :
  forall p, in_block hsz p -> in_block hsz (keyed_rounds hsz ks p).
Proof.
  induction ks as [|k ks IH]; intros p Hp; [exact Hp|].
  apply IH, keyed_round_in_block, Hp.
Qed.

Lemma attempt_in_block (direction : Z) (p : Z * Z) :
  in_block hsz p -> in_block hsz (attempt hsz crypt_key direction p).
Proof. intros Hp. apply swap_pair_in_block, keyed_rounds_in_block, Hp. Qed.

(** Running a round again on the swapped output undoes it. *)
Lemma keyed_round_undo (k : Z) (p : Z * Z) :
  in_block hsz p -> keyed_round hsz k (swap_pair (keyed_round hsz k p)) = swap_pair p.
Proof.
  intros [Hl _]. destruct p as [l r]. unfold keyed_round, swap_pair. cbn [fst snd] in *.
  f_equal. rewrite land_lxor_cancel, land_mask_mod by lia.
  apply Z.mod_small, Hl.
Qed.

Lemma keyed_rounds_undo (ks : list Z) :
  forall p, in_block hsz p ->
    keyed_rounds hsz (rev ks) (swap_pair (keyed_rounds hsz ks p)) = swap_pair p.
Proof.
  induction ks as [|k ks IH]; intros p Hp; [reflexivity|].
  cbn [rev]. unfold keyed_rounds at 1. rewrite fold_left_app. cbn [fold_left].
  change (fold_left (fun q k0 => keyed_round hsz k0 q) (rev ks) ?x)
    with (keyed_rounds hsz (rev ks) x).
  change (keyed_rounds hsz (k :: ks) p) with (keyed_rounds hsz ks (keyed_round hsz k p)).
  rewrite IH by (apply keyed_round_in_block, Hp).
  apply keyed_round_undo, Hp.
Qed.

(** Decryption undoes encryption on a block, and conversely. *)
Lemma attempt_decrypt_encrypt (p : Z * Z) :
  in_block hsz p -> attempt hsz crypt_key 1 (attempt hsz crypt_key 0 p) = p.
Proof.
  intros Hp. unfold attempt. rewrite subkeys_reversed, keyed_rounds_undo by exact Hp.
  apply swap_pair_involutive.
Qed.

Lemma attempt_encrypt_decrypt (p : Z * Z) :
  in_block hsz p -> attempt hsz crypt_key 0 (attempt hsz crypt_key 1 p) = p.
Proof.
  intros Hp. unfold attempt.
  rewrite <- (rev_involutive (subkeys crypt_key hsz 0)) at 1.
  rewrite <- subkeys_reversed, keyed_rounds_undo by exact Hp.
  apply swap_pair_involutive.
Qed.

End FeistelPairs.

(** ** The walk of the code against the walk of the specification *)

Section WalkRefinement.

Context {host : Host}.
Variables hsz mask crypt_key direction limit : Z.

Lemma cycle_walk_bounded_walk (n : nat) :
  forall fuel s walk_count,
    walk_count = walk_max - Z.of_nat n ->
    (n < fuel)%nat ->
    exists result count,
      cycle_walk fuel hsz mask crypt_key direction limit s walk_count
      = Some (result, count) /\
      (if count >=? walk_max
       then bounded_walk n hsz mask crypt_key direction (limit + 1) s
            = inl CycleLimitExceeded
       else bounded_walk n hsz mask crypt_key direction (limit + 1) s
            = inr result).
Proof.
  induction n as [|n IH]; intros fuel s walk_count Hcount Hfuel;
    (destruct fuel as [|fuel]; [lia|]); cbn [cycle_walk bounded_walk].
  - set (result := reassemble hsz (feistel_network hsz mask crypt_key direction s)).
    destruct (result >? limit) eqn:Eout.
    + assert (Hlt : (walk_count <? walk_max) = false) by (apply Z.ltb_ge; lia).
      rewrite Hlt. exists result, (walk_count + 1). split; [reflexivity|].
      assert (Hge : (walk_count + 1 >=? walk_max) = true) by (apply Z.geb_le; lia).
      rewrite Hge. reflexivity.
    + exists result, walk_count. split; [reflexivity|].
      assert (Hge : (walk_count >=? walk_max) = true) by (apply Z.geb_le; lia).
      rewrite Hge. reflexivity.
  - set (s' := feistel_network hsz mask crypt_key direction s).
    set (result := reassemble hsz s').
    destruct (result >? limit) eqn:Eout.
    + assert (Hlt : (walk_count <? walk_max) = true) by (apply Z.ltb_lt; lia).
      rewrite Hlt.
      assert (Hin : (result <? limit + 1) = false).
      { apply Z.ltb_ge. apply Z.gtb_lt in Eout. lia. }
      rewrite Hin. apply IH; lia.
    + exists result, walk_count. split; [reflexivity|].
      assert (Hge : (walk_count >=? walk_max) = false).
      { rewrite Z.geb_leb. apply Z.leb_gt. lia. }
      rewrite Hge.
      assert (Hin : (result <? limit + 1) = true).
      { apply Z.ltb_lt. rewrite Z.gtb_ltb in Eout. apply Z.ltb_ge in Eout. lia. }
      rewrite Hin. reflexivity.
Qed.

End WalkRefinement.

Section CipherRefinement.

Context {host : Host}.

(** The walk of the code never uses up the fuel of its model, and is the
    specified walk of [walk_max] iterations. *)
Lemma cycle_walking_cipher_bounded_walk (minval maxval value crypt_key direction : Z) :
  let hsz := half_block_size (cipher_interval minval maxval) in
  let mask := half_block_mask hsz in
  cycle_walking_cipher minval maxval value crypt_key direction
  = match bounded_walk (Z.to_nat walk_max) hsz mask (scramble_key crypt_key) direction
            (walk_limit minval maxval + 1) (initial_halves hsz mask minval value) with
    | inl e => inl e
    | inr result => inr (to_int64 (to_uint64 (to_uint64 minval + result)))
    end.
Proof.
  intros hsz mask. unfold cycle_walking_cipher. fold hsz. fold mask.
  destruct (cycle_walk_bounded_walk hsz mask (scramble_key crypt_key) direction
              (walk_limit minval maxval) (Z.to_nat walk_max) walk_fuel
              (initial_halves hsz mask minval value) 0)
    as (result & count & Hwalk & Hspec).
  - rewrite Z2Nat.id; unfold walk_max; lia.
  - unfold walk_fuel. lia.
  - rewrite Hwalk. destruct (count >=? walk_max); rewrite Hspec; reflexivity.
Qed.

End CipherRefinement.

(** ** Walking along the orbit of a function *)

Section Orbit.

Variable A : Type.
Variables (f : A -> A) (hit : A -> bool).

Lemma first_hit_succ (n : nat) (a : A) :
  first_hit f hit (S n) a
  = if hit (f a) then Some (f a) else first_hit f hit n (f a).
Proof. reflexivity. Qed.

Lemma first_hit_some (n : nat) :
  forall a b,
    first_hit f hit n a = Some b ->
    exists k, (k < n)%nat /\ b = Nat.iter (S k) f a /\ hit b = true /\
              forall j, (j < k)%nat -> hit (Nat.iter (S j) f a) = false.
Proof.
  induction n as [|n IH]; intros a b Hwalk; cbn [first_hit] in Hwalk; [discriminate|].
  destruct (hit (f a)) eqn:Ehit.
  - injection Hwalk as <-. exists 0%nat. repeat split; [lia | assumption | lia].
  - destruct (IH _ _ Hwalk) as (k & Hk & Hb & Hhit & Hbefore).
    exists (S k). rewrite Nat.iter_succ_r. repeat split; [lia | assumption..|].
    intros [|j] Hj; [exact Ehit|].
    rewrite Nat.iter_succ_r. apply Hbefore. lia.
Qed.

Lemma first_hit_at (k : nat) :
  forall n a,
    (k < n)%nat ->
    hit (Nat.iter (S k) f a) = true ->
    (forall j, (j < k)%nat -> hit (Nat.iter (S j) f a) = false) ->
    first_hit f hit n a = Some (Nat.iter (S k) f a).
Proof.
  induction k as [|k IH]; intros n a Hn Hhit Hbefore;
    (destruct n as [|n]; [lia|]); cbn [first_hit].
  - cbn in Hhit. rewrite Hhit. reflexivity.
  - pose proof (Hbefore 0%nat ltac:(lia)) as Hfirst.
    change (hit (f a) = false) in Hfirst.
    rewrite Hfirst.
    rewrite Nat.iter_succ_r. apply IH; [lia | rewrite <- Nat.iter_succ_r; exact Hhit |].
    intros j Hj. rewrite <- Nat.iter_succ_r. apply Hbefore. lia.
Qed.

Lemma first_hit_none (n : nat) :
  forall a, first_hit f hit n a = None ->
            forall j, (j < n)%nat -> hit (Nat.iter (S j) f a) = false.
Proof.
  induction n as [|n IH]; intros a Hwalk j Hj; [lia|].
  cbn [first_hit] in Hwalk. destruct (hit (f a)) eqn:Ehit; [discriminate|].
  destruct j as [|j]; [exact Ehit|].
  rewrite Nat.iter_succ_r. apply IH; [assumption | lia].
Qed.

End Orbit.

Arguments first_hit_succ {A}.
Arguments first_hit_some {A}.
Arguments first_hit_at {A}.
Arguments first_hit_none {A}.

Section OrbitInverse.

Variable A : Type.
Variables (f g : A -> A) (hit : A -> bool).
Variable inv : A -> Prop.
Hypothesis f_inv : forall a, inv a -> inv (f a).
Hypothesis g_f : forall a, inv a -> g (f a) = a.

Lemma iter_inv (n : nat) (a : A) : inv a -> inv (Nat.iter n f a).
Proof. intros Ha. induction n as [|n IH]; [exact Ha | apply f_inv, IH]. Qed.

Lemma iter_undo (j : nat) :
  forall i a, inv a -> Nat.iter j g (Nat.iter (j + i) f a) = Nat.iter i f a.
Proof.
  induction j as [|j IH]; intros i a Ha; [reflexivity|].
  rewrite Nat.iter_succ_r.
  change (Nat.iter (S j + i) f a) with (f (Nat.iter (j + i) f a)).
  rewrite g_f by (apply iter_inv, Ha). apply IH, Ha.
Qed.

(** Walking back with the inverse from where the walk ended leads to where
    it started, within as many steps. *)
Lemma first_hit_inverse (n : nat) (a b : A) :
  inv a -> hit a = true ->
  first_hit f hit n a = Some b -> first_hit g hit n b = Some a.
Proof.
  intros Ha Hhit Hwalk.
  destruct (first_hit_some f hit n a b Hwalk) as (k & Hk & -> & _ & Hbefore).
  assert (Hback : forall j, (j <= S k)%nat ->
            Nat.iter j g (Nat.iter (S k) f a) = Nat.iter (S k - j) f a).
  { intros j Hj.
    transitivity (Nat.iter j g (Nat.iter (j + (S k - j)) f a));
      [do 2 f_equal; lia | apply iter_undo, Ha]. }
  pose proof (Hback (S k) (le_n _)) as Hlast. rewrite Nat.sub_diag in Hlast.
  change (Nat.iter 0 f a) with a in Hlast.
  rewrite <- Hlast at 2. apply first_hit_at; [exact Hk | | ].
  - rewrite Hlast. exact Hhit.
  - intros j Hj. rewrite Hback by lia.
    replace (S k - S j)%nat with (S (k - S j)) by lia.
    apply Hbefore. lia.
Qed.

End OrbitInverse.

(** ** Offsets and pairs of halves *)

Lemma to_int64_cases (x : Z) :
  0 <= x < 2 ^ 64 ->
  (x < 2 ^ 63 /\ to_int64 x = x) \/ (2 ^ 63 <= x /\ to_int64 x = x - 2 ^ 64).
Proof.
  intros Hx. unfold to_int64.
  destruct (Z.lt_ge_cases x (2 ^ 63)) as [Hlt|Hge].
  - left. split; [assumption|]. rewrite Z.mod_small; lia.
  - right. split; [assumption|].
    replace (x + 2 ^ 63) with (x - 2 ^ 63 + 1 * 2 ^ 64) by lia.
    rewrite Z.mod_add by lia. rewrite Z.mod_small; lia.
Qed.

Section Blocks.

Variable hsz : Z.
Hypothesis hsz_range : 1 <= hsz <= 32.

Lemma block_bounds : 2 <= 2 ^ hsz <= 2 ^ 32 /\ 2 ^ (2 * hsz) <= 2 ^ 64.
Proof.
  pose proof (pow2_le_mono 1 hsz ltac:(lia)) as H1.
  pose proof (pow2_le_mono hsz 32 ltac:(lia)) as H2.
  pose proof (pow2_le_mono (2 * hsz) 64 ltac:(lia)) as H3.
  change (2 ^ 1) with 2 in H1. lia.
Qed.

Lemma pair_result_add (q : Z * Z) :
  in_block hsz q -> pair_result hsz q = fst q * 2 ^ hsz + snd q.
Proof.
  intros [Hl Hr]. unfold pair_result.
  pose proof block_bounds as [Hb Hd]. rewrite pow2_double in Hd by lia.
  rewrite to_uint64_small.
  - apply shiftl_lor_add; [lia | exact Hr].
  - rewrite Z.shiftl_mul_pow2 by lia. nia.
Qed.

Lemma pair_result_range (q : Z * Z) :
  in_block hsz q -> 0 <= pair_result hsz q < 2 ^ (2 * hsz).
Proof.
  intros Hq. rewrite pair_result_add by exact Hq. destruct Hq as [Hl Hr].
  rewrite pow2_double by lia. nia.
Qed.

Lemma split_offset_in_block (offset : Z) :
  0 <= offset < 2 ^ (2 * hsz) -> in_block hsz (split_offset hsz offset).
Proof.
  intros Ho. pose proof block_bounds as [Hb _]. rewrite pow2_double in Ho by lia.
  unfold in_block, split_offset. cbn [fst snd]. split.
  - split; [apply Z.div_pos; lia | apply Z.div_lt_upper_bound; lia].
  - apply Z.mod_pos_bound. lia.
Qed.

Lemma pair_result_split (offset : Z) :
  0 <= offset < 2 ^ (2 * hsz) -> pair_result hsz (split_offset hsz offset) = offset.
Proof.
  intros Ho. rewrite pair_result_add by (apply split_offset_in_block, Ho).
  unfold split_offset. cbn [fst snd].
  pose proof block_bounds as [Hb _].
  rewrite (Z.div_mod offset (2 ^ hsz)) at 3 by lia. lia.
Qed.

Lemma split_pair_result (q : Z * Z) :
  in_block hsz q -> split_offset hsz (pair_result hsz q) = q.
Proof.
  intros Hq. rewrite pair_result_add by exact Hq.
  destruct q as [l r]. destruct Hq as [Hl Hr]. cbn [fst snd] in *.
  pose proof block_bounds as [Hb _].
  unfold split_offset. f_equal.
  - rewrite Z.div_add_l by lia. rewrite Z.div_small by exact Hr. lia.
  - rewrite Z.add_comm, Z.mod_add by lia. apply Z.mod_small, Hr.
Qed.

(** The halves the cipher starts from are the two halves of the offset,
    also when the offset does not fit a signed 64-bit integer. *)
Lemma initial_halves_split (minval value : Z) :
  0 <= value - minval < 2 ^ (2 * hsz) ->
  halves_pair (initial_halves hsz (2 ^ hsz - 1) minval value)
  = split_offset hsz (value - minval).
Proof.
  intros Ho. pose proof block_bounds as [Hb Hd].
  assert (H64 : 2 ^ 64 = 2 ^ (64 - hsz) * 2 ^ hsz).
  { rewrite <- Z.pow_add_r by lia. f_equal. lia. }
  pose proof (split_offset_in_block _ Ho) as [Hl Hr].
  unfold halves_pair, initial_halves, split_offset in *. cbn [l1 r1 fst snd] in *.
  set (offset := value - minval) in *.
  rewrite land_mask_mod, Z.shiftr_div_pow2 by lia.
  destruct (to_int64_cases offset ltac:(lia)) as [[Hlt ->]|[Hge ->]].
  - f_equal; apply to_uint32_small; lia.
  - f_equal.
    + assert (hsz = 32) as ->.
      { destruct (Z.eq_dec hsz 32) as [|Hne]; [assumption|].
        pose proof (pow2_le_mono (2 * hsz) 62 ltac:(lia)). lia. }
      replace (offset - 2 ^ 64) with (offset + (- 2 ^ 32) * 2 ^ 32) by lia.
      rewrite Z.div_add by lia. unfold to_uint32.
      replace (offset / 2 ^ 32 + - 2 ^ 32) with (offset / 2 ^ 32 + (- 1) * 2 ^ 32) by lia.
      rewrite Z.mod_add by lia. apply Z.mod_small. exact Hl.
    + rewrite H64.
      replace (offset - 2 ^ (64 - hsz) * 2 ^ hsz)
        with (offset + (- 2 ^ (64 - hsz)) * 2 ^ hsz) by lia.
      rewrite Z.mod_add by lia. apply to_uint32_small. lia.
Qed.

End Blocks.

Section WalkOnPairs.

Context {host : Host}.
Variables hsz crypt_key direction range_size : Z.

Lemma reassemble_pair (p : Z * Z) :
  reassemble hsz (pair_halves p) = pair_result hsz (swap_pair p).
Proof. reflexivity. Qed.

Lemma halves_pair_swap (p : Z * Z) :
  halves_pair (swap_halves (pair_halves p)) = swap_pair p.
Proof. reflexivity. Qed.

Lemma bounded_walk_first_hit (n : nat) :
  forall s,
    bounded_walk n hsz (2 ^ hsz - 1) crypt_key direction range_size s
    = match first_hit (attempt hsz crypt_key direction)
                      (fun q => pair_result hsz q <? range_size) n (halves_pair s) with
      | Some q => inr (pair_result hsz q)
      | None => inl CycleLimitExceeded
      end.
Proof.
  induction n as [|n IH]; intros s; [reflexivity|].
  cbn [bounded_walk first_hit]. rewrite feistel_network_pair.
  assert (E : attempt hsz crypt_key direction (halves_pair s)
              = swap_pair (keyed_rounds hsz (subkeys crypt_key hsz direction)
                             (halves_pair s))) by reflexivity.
  rewrite E. clear E.
  generalize (keyed_rounds hsz (subkeys crypt_key hsz direction) (halves_pair s)).
  intros p. rewrite reassemble_pair.
  destruct (pair_result hsz (swap_pair p) <? range_size); [reflexivity|].
  rewrite IH, halves_pair_swap. reflexivity.
Qed.

End WalkOnPairs.

(** ** The cipher on a range that is not the whole of [int64] *)

Lemma range_width (minval maxval : Z) :
  representable_range minval maxval ->
  let hsz := half_block_size (cipher_interval minval maxval) in
  1 <= hsz <= 32 /\
  maxval - minval + 1 <= 2 ^ (2 * hsz) /\
  half_block_mask hsz = 2 ^ hsz - 1 /\
  walk_limit minval maxval + 1 = maxval - minval + 1.
Proof.
  intros (Hmin & Hmax & Hle & Hfull) hsz.
  pose proof (half_block_size_spec (cipher_interval minval maxval)) as (Hh & Hge & _).
  fold hsz in Hh, Hge.
  rewrite cipher_interval_exact in Hge by assumption.
  repeat split; try lia.
  - destruct (Z.eq_dec hsz 32) as [->|Hne]; [change (2 ^ (2 * 32)) with (2 ^ 64); lia|].
    apply Hge. lia.
  - apply half_block_mask_ones. lia.
  - rewrite walk_limit_exact by assumption. reflexivity.
Qed.

Section CipherOnRange.

Context {host : Host}.
Variables minval maxval : Z.
Hypothesis range_ok : representable_range minval maxval.

Let hsz : Z := half_block_size (cipher_interval minval maxval).
Let in_range (q : Z * Z) : bool := pair_result hsz q <? maxval - minval + 1.

Lemma return_value_exact (result : Z) :
  0 <= result <= maxval - minval ->
  to_int64 (to_uint64 (to_uint64 minval + result)) = minval + result.
Proof.
  intros Hr. destruct range_ok as (Hmin & Hmax & Hle & _).
  rewrite to_uint64_add_l, to_int64_to_uint64. apply to_int64_small.
  unfold is_int64 in *. lia.
Qed.

(** The cipher is the first in-range pair along the orbit of the network,
    among the first [walk_max]. *)
Lemma cycle_walking_cipher_first_hit (value crypt_key direction : Z) :
  minval <= value <= maxval ->
  cycle_walking_cipher minval maxval value crypt_key direction
  = match first_hit (attempt hsz (scramble_key crypt_key) direction) in_range
            (Z.to_nat walk_max) (split_offset hsz (value - minval)) with
    | Some q => inr (minval + pair_result hsz q)
    | None => inl CycleLimitExceeded
    end.
Proof.
  intros Hv. destruct (range_width minval maxval range_ok) as (Hh & Hge & Hmask & Hlim).
  fold hsz in Hh, Hge, Hmask.
  rewrite cycle_walking_cipher_bounded_walk. cbv zeta. fold hsz.
  rewrite Hmask, Hlim, bounded_walk_first_hit by lia.
  rewrite (initial_halves_split hsz Hh) by lia.
  fold in_range.
  destruct (first_hit _ in_range _ _) as [q|] eqn:Ewalk; [|reflexivity].
  f_equal.
  destruct (first_hit_some _ _ _ _ _ Ewalk) as (k & _ & -> & Hhit & _).
  apply return_value_exact.
  set (q := Nat.iter (S k) _ _) in *.
  assert (Hq : in_block hsz q).
  { apply (iter_inv _ _ (in_block hsz)).
    - intros a Ha. apply attempt_in_block; [lia | exact Ha].
    - apply split_offset_in_block; lia. }
  pose proof (pair_result_range hsz Hh q Hq).
  unfold in_range in Hhit. apply Z.ltb_lt in Hhit. lia.
Qed.

Lemma cycle_walking_cipher_in_range (value crypt_key direction result : Z) :
  minval <= value <= maxval ->
  cycle_walking_cipher minval maxval value crypt_key direction = inr result ->
  minval <= result <= maxval.
Proof.
  intros Hv Hrun. destruct (range_width minval maxval range_ok) as (Hh & Hge & _).
  fold hsz in Hh, Hge.
  rewrite cycle_walking_cipher_first_hit in Hrun by exact Hv.
  destruct (first_hit _ in_range _ _) as [q|] eqn:Ewalk; [|discriminate].
  injection Hrun as <-.
  destruct (first_hit_some _ _ _ _ _ Ewalk) as (k & _ & -> & Hhit & _).
  set (q := Nat.iter (S k) _ _) in *.
  assert (Hq : in_block hsz q).
  { apply (iter_inv _ _ (in_block hsz)).
    - intros a Ha. apply attempt_in_block; [lia | exact Ha].
    - apply split_offset_in_block; lia. }
  pose proof (pair_result_range hsz Hh q Hq).
  unfold in_range in Hhit. apply Z.ltb_lt in Hhit. lia.
Qed.

(** Running the cipher in one direction and then in the other gives the
    value back. *)
Lemma cycle_walking_cipher_undo (d d' value crypt_key result : Z) :
  (forall key p, in_block hsz p -> attempt hsz key d' (attempt hsz key d p) = p) ->
  minval <= value <= maxval ->
  cycle_walking_cipher minval maxval value crypt_key d = inr result ->
  cycle_walking_cipher minval maxval result crypt_key d' = inr value.
Proof.
  intros Hundo Hv Hrun.
  pose proof (cycle_walking_cipher_in_range _ _ _ _ Hv Hrun) as Hres.
  destruct (range_width minval maxval range_ok) as (Hh & Hge & _).
  fold hsz in Hh, Hge.
  rewrite cycle_walking_cipher_first_hit in Hrun by exact Hv.
  rewrite cycle_walking_cipher_first_hit by exact Hres.
  destruct (first_hit _ in_range _ (split_offset hsz (value - minval)))
    as [q|] eqn:Ewalk; [|discriminate].
  injection Hrun as <-.
  assert (Hq : in_block hsz q).
  { destruct (first_hit_some _ _ _ _ _ Ewalk) as (k & _ & -> & _).
    apply (iter_inv _ _ (in_block hsz)).
    - intros a Ha. apply attempt_in_block; [lia | exact Ha].
    - apply split_offset_in_block; lia. }
  replace (minval + pair_result hsz q - minval) with (pair_result hsz q) by lia.
  rewrite (split_pair_result hsz Hh) by exact Hq.
  rewrite (first_hit_inverse _ (attempt hsz (scramble_key crypt_key) d)
             (attempt hsz (scramble_key crypt_key) d') in_range (in_block hsz))
    with (a := split_offset hsz (value - minval)) (n := Z.to_nat walk_max).
  - f_equal. rewrite (pair_result_split hsz Hh) by lia. lia.
  - intros a Ha. apply attempt_in_block; [lia | exact Ha].
  - intros a Ha. apply Hundo, Ha.
  - apply split_offset_in_block; lia.
  - unfold in_range. rewrite (pair_result_split hsz Hh) by lia. apply Z.ltb_lt. lia.
  - exact Ewalk.
Qed.

Lemma decrypt_encrypt (value crypt_key c : Z) :
  minval <= value <= maxval ->
  cycle_walking_cipher minval maxval value crypt_key 0 = inr c ->
  cycle_walking_cipher minval maxval c crypt_key 1 = inr value.
Proof.
  destruct (range_width minval maxval range_ok) as (Hh & _). fold hsz in Hh.
  apply cycle_walking_cipher_undo.
  intros key p Hp. apply attempt_decrypt_encrypt; [lia | exact Hp].
Qed.

Lemma encrypt_decrypt (value crypt_key c : Z) :
  minval <= value <= maxval ->
  cycle_walking_cipher minval maxval value crypt_key 1 = inr c ->
  cycle_walking_cipher minval maxval c crypt_key 0 = inr value.
Proof.
  destruct (range_width minval maxval range_ok) as (Hh & _). fold hsz in Hh.
  apply cycle_walking_cipher_undo.
  intros key p Hp. apply attempt_encrypt_decrypt; [lia | exact Hp].
Qed.

(** Distinct values of the range are never encrypted to the same value. *)
Lemma encrypt_injective (v v' crypt_key c : Z) :
  minval <= v <= maxval -> minval <= v' <= maxval ->
  cycle_walking_cipher minval maxval v crypt_key 0 = inr c ->
  cycle_walking_cipher minval maxval v' crypt_key 0 = inr c ->
  v = v'.
Proof.
  intros Hv Hv' Hrun Hrun'.
  apply decrypt_encrypt in Hrun; [|exact Hv].
  apply decrypt_encrypt in Hrun'; [|exact Hv'].
  congruence.
Qed.

End CipherOnRange.

(** ** Ranges on which the walk cannot run out of iterations *)

Lemma NoDup_map_seq {B : Type} (g : nat -> B) (len : nat) :
  forall start,
    (forall i j, (start <= i < j)%nat -> (j < start + len)%nat -> g i <> g j) ->
    NoDup (map g (seq start len)).
Proof.
  induction len as [|len IH]; intros start Hdistinct; cbn [seq map]; constructor.
  - intros Hin. apply in_map_iff in Hin. destruct Hin as (j & Heq & Hj).
    apply in_seq in Hj. apply (Hdistinct start j); [lia | lia | congruence].
  - apply IH. intros i j Hij Hj. apply Hdistinct; lia.
Qed.

Lemma pigeonhole_interval (l : list Z) (lo hi : Z) :
  NoDup l -> (forall x, In x l -> lo <= x < hi) ->
  Z.of_nat (length l) <= Z.max 0 (hi - lo).
Proof.
  intros Hnodup Hbound.
  set (all := map (fun i => lo + Z.of_nat i) (seq 0 (Z.to_nat (hi - lo)))).
  assert (Hincl : incl l all).
  { intros x Hx. apply Hbound in Hx. apply in_map_iff.
    exists (Z.to_nat (x - lo)). split; [lia|]. apply in_seq. lia. }
  pose proof (NoDup_incl_length Hnodup Hincl) as Hlen.
  unfold all in Hlen. rewrite length_map, length_seq in Hlen. lia.
Qed.

Section OrbitDistinct.

Variable A : Type.
Variables (f g : A -> A) (hit : A -> bool).
Variable inv : A -> Prop.
Hypothesis f_inv : forall a, inv a -> inv (f a).
Hypothesis g_f : forall a, inv a -> g (f a) = a.

(** Until the walk comes back into range it never meets a value twice. *)
Lemma misses_distinct (n : nat) (a : A) :
  inv a -> hit a = true ->
  (forall j, (j < n)%nat -> hit (Nat.iter (S j) f a) = false) ->
  forall i j, (i < j)%nat -> (j < n)%nat -> Nat.iter (S i) f a <> Nat.iter (S j) f a.
Proof.
  intros Ha Hhit Hmiss i j Hij Hj Heq.
  assert (Hback : a = Nat.iter (S (j - i - 1)) f a).
  { rewrite <- (iter_undo A f g inv f_inv g_f (S i) 0 a Ha) at 1.
    rewrite <- (iter_undo A f g inv f_inv g_f (S i) (S (j - i - 1)) a Ha).
    replace (S i + 0)%nat with (S i) by lia.
    replace (S i + S (j - i - 1))%nat with (S j) by lia.
    rewrite Heq. reflexivity. }
  rewrite Hback, Hmiss in Hhit by lia. discriminate.
Qed.

End OrbitDistinct.

Section WalkLength.

Context {host : Host}.
Variables minval maxval : Z.
Hypothesis range_ok : representable_range minval maxval.

Let hsz : Z := half_block_size (cipher_interval minval maxval).
Let in_range (q : Z * Z) : bool := pair_result hsz q <? maxval - minval + 1.

(** The values of the working domain that lie outside the range are fewer
    than the walks the cipher allows itself: every value is then
    encrypted, and decrypted. *)
Lemma cycle_walking_cipher_returns (value crypt_key direction : Z) :
  direction = 0 \/ direction = 1 ->
  minval <= value <= maxval ->
  2 ^ (2 * hsz) - (maxval - minval + 1) < walk_max ->
  exists result, cycle_walking_cipher minval maxval value crypt_key direction
                 = inr result.
Proof.
  intros Hd Hv Hfew.
  destruct (range_width minval maxval range_ok) as (Hh & Hge & _).
  fold hsz in Hh, Hge.
  rewrite (cycle_walking_cipher_first_hit minval maxval range_ok) by exact Hv.
  fold hsz. fold in_range.
  set (f := attempt hsz (scramble_key crypt_key) direction).
  set (a := split_offset hsz (value - minval)).
  destruct (first_hit f in_range (Z.to_nat walk_max) a) as [q|] eqn:Ewalk;
    [eexists; reflexivity | exfalso].
  pose proof (first_hit_none f in_range _ _ Ewalk) as Hmiss.
  assert (Ha : in_block hsz a) by (apply split_offset_in_block; lia).
  assert (Hhit : in_range a = true).
  { unfold in_range, a. rewrite (pair_result_split hsz Hh) by lia.
    apply Z.ltb_lt. lia. }
  assert (Hf : forall p, in_block hsz p -> in_block hsz (f p)).
  { intros p Hp. apply attempt_in_block; [lia | exact Hp]. }
  assert (Hg : exists g, forall p, in_block hsz p -> g (f p) = p).
  { destruct Hd as [Hd|Hd]; unfold f; rewrite Hd.
    - exists (attempt hsz (scramble_key crypt_key) 1).
      intros p Hp. apply attempt_decrypt_encrypt; [lia | exact Hp].
    - exists (attempt hsz (scramble_key crypt_key) 0).
      intros p Hp. apply attempt_encrypt_decrypt; [lia | exact Hp]. }
  destruct Hg as [g Hg].
  pose proof (misses_distinct _ f g in_range (in_block hsz) Hf Hg _ a Ha Hhit Hmiss)
    as Hdistinct.
  set (visited := map (fun j => pair_result hsz (Nat.iter (S j) f a))
                      (seq 0 (Z.to_nat walk_max))).
  assert (Hblock : forall j, in_block hsz (Nat.iter j f a)).
  { intros j. apply (iter_inv _ f (in_block hsz) Hf), Ha. }
  assert (Hnodup : NoDup visited).
  { apply NoDup_map_seq. intros i j Hij Hj Heq.
    apply (Hdistinct i j); [lia | lia |].
    rewrite <- (split_pair_result hsz Hh _ (Hblock (S i))).
    rewrite <- (split_pair_result hsz Hh _ (Hblock (S j))).
    rewrite Heq. reflexivity. }
  assert (Hbound : forall x, In x visited ->
                             maxval - minval + 1 <= x < 2 ^ (2 * hsz)).
  { intros x Hx. apply in_map_iff in Hx. destruct Hx as (j & <- & Hj).
    apply in_seq in Hj.
    pose proof (pair_result_range hsz Hh _ (Hblock (S j))) as Hres.
    pose proof (Hmiss j ltac:(lia)) as Hout.
    unfold in_range in Hout. apply Z.ltb_ge in Hout. lia. }
  pose proof (pigeonhole_interval _ _ _ Hnodup Hbound) as Hcount.
  unfold visited in Hcount. rewrite length_map, length_seq in Hcount.
  rewrite Z2Nat.id in Hcount by (unfold walk_max; lia).
  unfold walk_max in *. lia.
Qed.

(** This is so for every range of at most 2^20 values. *)
Lemma few_values_outside :
  maxval - minval + 1 <= 2 ^ 20 ->
  2 ^ (2 * hsz) - (maxval - minval + 1) < walk_max.
Proof.
  intros Hsmall. destruct range_ok as (Hmin & Hmax & Hle & Hfull).
  pose proof (half_block_size_spec (cipher_interval minval maxval)) as (Hh & _ & Hbelow).
  fold hsz in Hh, Hbelow.
  rewrite cipher_interval_exact in Hbelow by assumption.
  assert (Hten : hsz <= 10).
  { destruct (Z.le_gt_cases hsz 10) as [|Hgt]; [assumption|].
    pose proof (Hbelow 10 ltac:(lia)) as H10. change (2 * 10) with 20 in H10. lia. }
  pose proof (pow2_le_mono (2 * hsz) 20 ltac:(lia)) as Hdomain.
  unfold walk_max.
  destruct (Z.eq_dec hsz 1) as [Hone|Hmore].
  - rewrite Hone. change (2 ^ (2 * 1)) with 4. lia.
  - pose proof (Hbelow (hsz - 1) ltac:(lia)) as Hprev.
    replace (2 * hsz) with (2 * (hsz - 1) + 2) in * by lia.
    rewrite Z.pow_add_r in * by lia. change (2 ^ 2) with 4 in *.
    change (2 ^ 20) with 1048576 in *. lia.
Qed.

End WalkLength.

(** ** Every attempt ends in a block *)

Section AttemptBounds.

Context {host : Host}.
Variables hsz crypt_key : Z.
Hypothesis hsz_range : 0 <= hsz <= 32.

Lemma keyed_rounds_cons (k : Z) (ks : list Z) (p : Z * Z) :
  keyed_rounds hsz (k :: ks) p = keyed_rounds hsz ks (keyed_round hsz k p).
Proof. reflexivity. Qed.

Lemma keyed_round_right_in_block (k : Z) (p : Z * Z) :
  0 <= snd p < 2 ^ hsz -> in_block hsz (keyed_round hsz k p).
Proof. intros Hr. split; [exact Hr | apply land_mask_range; lia]. Qed.

Lemma keyed_round_right_range (k : Z) (p : Z * Z) :
  0 <= snd (keyed_round hsz k p) < 2 ^ hsz.
Proof. apply land_mask_range. lia. Qed.

(** Two rounds are enough to bring both halves below [2 ^ hsz], whatever
    the halves the network started from. *)
Lemma attempt_always_in_block (direction : Z) (p : Z * Z) :
  in_block hsz (attempt hsz crypt_key direction p).
Proof.
  unfold attempt, subkeys, round_indices. cbn [map].
  apply swap_pair_in_block.
  do 2 rewrite keyed_rounds_cons.
  apply keyed_rounds_in_block; [exact hsz_range|].
  apply keyed_round_right_in_block, keyed_round_right_range.
Qed.

Lemma network_result (direction : Z) (s : halves) :
  reassemble hsz (feistel_network hsz (2 ^ hsz - 1) crypt_key direction s)
  = pair_result hsz (attempt hsz crypt_key direction (halves_pair s)).
Proof. rewrite feistel_network_pair, reassemble_pair. unfold attempt. reflexivity. Qed.

End AttemptBounds.

(** * The claims *)

(** ** C5: the half-block width *)

(** C5, counterexample.  For the range [0, 0] of a single value the width
    is 1 and the working domain has 4 values, which is not below four
    times the interval size: the bound of the claim fails. *)
Lemma width_single_value_range : ~ width_as_specified 0 0.
Proof.
  unfold width_as_specified. intros (_ & _ & _ & _ & Hbelow).
  vm_compute in Hbelow. discriminate.
Qed.

(** C5, amended.  For every range with [minval <= maxval] whose interval
    size [maxval - minval + 1] is below 2^64, the half-block width computed
    by the cipher is the smallest integer of at least 1 (and it is at most
    32) such that [2 ^ (2 * hsz)] is at least the interval size; the working
    domain is therefore at least the interval size, and below four times
    it as soon as the interval has two values. *)
Theorem half_block_width_minimal (minval maxval : Z) :
  is_int64 minval -> is_int64 maxval -> minval <= maxval ->
  maxval - minval + 1 < 2 ^ 64 ->
  let interval_size := maxval - minval + 1 in
  let hsz := half_block_size (cipher_interval minval maxval) in
  1 <= hsz <= 32 /\
  interval_size <= 2 ^ (2 * hsz) /\
  (forall h, 1 <= h -> interval_size <= 2 ^ (2 * h) -> hsz <= h) /\
  (2 <= interval_size -> 2 ^ (2 * hsz) < 4 * interval_size).
Proof.
  intros Hmin Hmax Hle Hfull interval_size hsz.
  pose proof (conj Hmin (conj Hmax (conj Hle Hfull))
              : representable_range minval maxval) as Hok.
  destruct (range_width minval maxval Hok) as (Hh & Hge & _).
  fold hsz in Hh, Hge. fold interval_size in Hge.
  pose proof (half_block_size_spec (cipher_interval minval maxval)) as (_ & _ & Hbelow).
  fold hsz in Hbelow.
  rewrite cipher_interval_exact in Hbelow by assumption. fold interval_size in Hbelow.
  repeat split; try lia.
  - intros h Hh1 Hcover.
    destruct (Z.le_gt_cases hsz h) as [|Hgt]; [assumption|].
    pose proof (Hbelow h ltac:(lia)). lia.
  - intros Htwo. destruct (Z.eq_dec hsz 1) as [Hone|Hmore].
    + rewrite Hone. change (2 ^ (2 * 1)) with 4. lia.
    + pose proof (Hbelow (hsz - 1) ltac:(lia)) as Hprev.
      replace (2 * hsz) with (2 * (hsz - 1) + 2) by lia.
      rewrite Z.pow_add_r by lia. change (2 ^ 2) with 4. lia.
Qed.

Lemma half_block_width_minimal_witness :
  let interval_size := 999 - 0 + 1 in
  let hsz := half_block_size (cipher_interval 0 999) in
  1 <= hsz <= 32 /\
  interval_size <= 2 ^ (2 * hsz) /\
  (forall h, 1 <= h -> interval_size <= 2 ^ (2 * h) -> hsz <= h) /\
  (2 <= interval_size -> 2 ^ (2 * hsz) < 4 * interval_size).
Proof.
  apply (half_block_width_minimal 0 999);
    unfold is_int64, PG_INT64_MIN, PG_INT64_MAX; lia.
Defined.

(** ** C7: the round subkeys *)

(** C7, at the failing input.  The comment of the source calls [Ki] a
    sliding and cycling window of [hsz] bits over the key.  With
    PostgreSQL's mixing function, the key 0x123456789ABCDEF0 and the range
    [0, 999] (half-block width 5), the subkey the code computes for the
    first encryption round is not the 5-bit window of the scrambled key
    plus the index: it is a 32-bit word, beyond every 5-bit window plus
    index 0. *)
Lemma subkey_wider_than_half_block :
  let scrambled := @scramble_key sample_host 0x123456789ABCDEF0 in
  let hsz := half_block_size (cipher_interval 0 999) in
  hsz = 5 /\
  round_subkey scrambled hsz 0 0 <> subkey_as_specified scrambled hsz 0 0 /\
  2 ^ hsz + subkey_index 0 0 <= round_subkey scrambled hsz 0 0.
Proof. vm_compute. repeat split; discriminate. Qed.

(** What the code computes: for every scrambled key, round index [i] in
    [0..NR-1] and half-block width, [Ki] is the 32-bit word of the key bits
    from bit [(hsz * j) mod 64] upwards (32 bits wide whatever [hsz] is,
    with zeros above bit 63), plus [j] modulo 2^32, where [j] is [i] when
    encrypting and [NR-1-i] when decrypting; so decryption round [i] uses
    exactly the subkey of encryption round [NR-1-i]. *)
Theorem round_subkey_window (crypt_key hsz direction i : Z) :
  0 <= hsz <= 32 -> 0 <= i < NR ->
  let j := subkey_index direction i in
  (direction = 0 -> j = i) /\
  (direction <> 0 -> j = NR - 1 - i) /\
  round_subkey crypt_key hsz direction i
  = ((crypt_key / 2 ^ ((hsz * j) mod 64)) mod 2 ^ 32 + j) mod 2 ^ 32 /\
  round_subkey crypt_key hsz 1 i = round_subkey crypt_key hsz 0 (NR - 1 - i).
Proof.
  intros Hh Hi j. split; [|split; [|split]].
  - intros ->. reflexivity.
  - intros Hd. apply subkey_index_decrypt, Hd.
  - apply round_subkey_unfold; assumption.
  - unfold round_subkey. rewrite subkey_index_mirror. reflexivity.
Qed.

Lemma round_subkey_window_witness :
  let j := subkey_index 1 2 in
  (1 = 0 -> j = 2) /\
  (1 <> 0 -> j = NR - 1 - 2) /\
  round_subkey 0x0123456789ABCDEF 5 1 2
  = ((0x0123456789ABCDEF / 2 ^ ((5 * j) mod 64)) mod 2 ^ 32 + j) mod 2 ^ 32 /\
  round_subkey 0x0123456789ABCDEF 5 1 2 = round_subkey 0x0123456789ABCDEF 5 0 (NR - 1 - 2).
Proof.
  apply (round_subkey_window 0x0123456789ABCDEF 5 1 2); unfold NR; lia.
Defined.

(** ** C8: one walking attempt *)





(** ** C6: the cycle-walking loop *)

Lemma return_value_in_range (minval maxval result : Z) :
  is_int64 minval -> is_int64 maxval ->
  0 <= result <= maxval - minval ->
  to_int64 (to_uint64 (to_uint64 minval + result)) = minval + result.
Proof.
  intros Hmin Hmax Hr.
  rewrite to_uint64_add_l, to_int64_to_uint64. apply to_int64_small.
  unfold is_int64 in *. lia.
Qed.

Lemma first_hit_in_block {host : Host} (hsz crypt_key direction : Z)
      (hit : Z * Z -> bool) (n : nat) (p q : Z * Z) :
  0 <= hsz <= 32 ->
  first_hit (attempt hsz crypt_key direction) hit n p = Some q ->
  in_block hsz q /\ hit q = true.
Proof.
  intros Hh Hwalk.
  destruct (first_hit_some _ _ _ _ _ Hwalk) as (k & _ & -> & Hhit & _).
  split; [|exact Hhit].
  change (Nat.iter (S k) (attempt hsz crypt_key direction) p)
    with (attempt hsz crypt_key direction
            (Nat.iter k (attempt hsz crypt_key direction) p)).
  apply attempt_always_in_block, Hh.
Qed.

(** C6.  On a range with [minval <= maxval] the loop is the walk of the
    specification: it returns, as the offset added to [minval], the first
    result of the network along the walk that is strictly below the interval
    size, which is the same as not greater than [maxval - minval], the test
    of the code; it looks at no more than [walk_max = 1,000,000] results, and
    when none of them is in range it fails with [CycleLimitExceeded] instead
    of returning a value. *)
Theorem cycle_walk_first_in_range {host : Host}
        (minval maxval value crypt_key direction : Z) :
  is_int64 minval -> is_int64 maxval -> minval <= maxval ->
  let hsz := half_block_size (cipher_interval minval maxval) in
  let mask := half_block_mask hsz in
  walk_max = 1000000 /\
  (forall result,
      result < maxval - minval + 1 <-> ~ result > walk_limit minval maxval) /\
  cycle_walking_cipher minval maxval value crypt_key direction
  = match bounded_walk (Z.to_nat walk_max) hsz mask (scramble_key crypt_key) direction
            (maxval - minval + 1) (initial_halves hsz mask minval value) with
    | inl _ => inl CycleLimitExceeded
    | inr result => inr (minval + result)
    end.
Proof.
  intros Hmin Hmax Hle hsz mask.
  pose proof (half_block_size_spec (cipher_interval minval maxval)) as (Hh & _).
  fold hsz in Hh.
  split; [reflexivity|]. split.
  - intros result. rewrite walk_limit_exact by assumption. lia.
  - rewrite cycle_walking_cipher_bounded_walk. cbv zeta. fold hsz. subst mask.
    rewrite walk_limit_exact, half_block_mask_ones by (assumption || lia).
    rewrite bounded_walk_first_hit.
    destruct (first_hit _ _ _ _) as [q|] eqn:Ewalk; [|reflexivity].
    f_equal. apply (return_value_in_range minval maxval); [assumption..|].
    assert (Hh' : 0 <= hsz <= 32) by lia.
    destruct (first_hit_in_block _ _ _ _ _ _ _ Hh' Ewalk) as [Hq Hhit].
    pose proof (pair_result_range hsz Hh q Hq).
    apply Z.ltb_lt in Hhit. lia.
Qed.

Lemma cycle_walk_first_in_range_witness :
  let hsz := half_block_size (cipher_interval 0 999) in
  let mask := half_block_mask hsz in
  walk_max = 1000000 /\
  (forall result, result < 999 - 0 + 1 <-> ~ result > walk_limit 0 999) /\
  @cycle_walking_cipher sample_host 0 999 0 0x123456789ABCDEF0 0
  = match @bounded_walk sample_host (Z.to_nat walk_max) hsz mask
            (@scramble_key sample_host 0x123456789ABCDEF0) 0
            (999 - 0 + 1) (initial_halves hsz mask 0 0) with
    | inl _ => inl CycleLimitExceeded
    | inr result => inr (0 + result)
    end.
Proof.
  apply (@cycle_walk_first_in_range sample_host 0 999 0 0x123456789ABCDEF0 0);
    unfold is_int64, PG_INT64_MIN, PG_INT64_MAX; lia.
Defined.

(** ** The entry points on values inside and outside the range *)

Lemma outside_false (v minval maxval : Z) :
  minval <= v <= maxval -> (v <? minval) || (v >? maxval) = false.
Proof.
  intros Hv. apply orb_false_iff. split; [apply Z.ltb_ge; lia|].
  rewrite Z.gtb_ltb. apply Z.ltb_ge. lia.
Qed.

Lemma outside_true (v minval maxval : Z) :
  v < minval \/ v > maxval -> (v <? minval) || (v >? maxval) = true.
Proof.
  intros Hv. apply orb_true_iff. rewrite Z.gtb_ltb, !Z.ltb_lt. lia.
Qed.

Section EntryPoints.

Context {host : Host}.

Lemma range_encrypt_element_inside (v minval maxval crypt_key : Z) (w : world) :
  minval <= v <= maxval ->
  range_encrypt_element v minval maxval crypt_key w
  = ({| db := db w;
        cipher_runs := CipherCall minval maxval v (to_uint64 crypt_key) 0
                         :: cipher_runs w |},
     cycle_walking_cipher minval maxval v (to_uint64 crypt_key) 0).
Proof.
  intros Hv. unfold range_encrypt_element. rewrite outside_false by exact Hv.
  reflexivity.
Qed.

Lemma range_decrypt_element_inside (v minval maxval crypt_key : Z) (w : world) :
  minval <= v <= maxval ->
  range_decrypt_element v minval maxval crypt_key w
  = ({| db := db w;
        cipher_runs := CipherCall minval maxval v (to_uint64 crypt_key) 1
                         :: cipher_runs w |},
     cycle_walking_cipher minval maxval v (to_uint64 crypt_key) 1).
Proof.
  intros Hv. unfold range_decrypt_element. rewrite outside_false by exact Hv.
  reflexivity.
Qed.

Lemma range_encrypt_element_result (v minval maxval crypt_key : Z) (w : world) :
  minval <= v <= maxval ->
  snd (range_encrypt_element v minval maxval crypt_key w)
  = cycle_walking_cipher minval maxval v (to_uint64 crypt_key) 0.
Proof.
  intros Hv. rewrite range_encrypt_element_inside by exact Hv.
  generalize (cycle_walking_cipher minval maxval v (to_uint64 crypt_key) 0).
  reflexivity.
Qed.

Lemma range_decrypt_element_result (v minval maxval crypt_key : Z) (w : world) :
  minval <= v <= maxval ->
  snd (range_decrypt_element v minval maxval crypt_key w)
  = cycle_walking_cipher minval maxval v (to_uint64 crypt_key) 1.
Proof.
  intros Hv. rewrite range_decrypt_element_inside by exact Hv.
  generalize (cycle_walking_cipher minval maxval v (to_uint64 crypt_key) 1).
  reflexivity.
Qed.

Lemma cycle_walking_cipher_errors (minval maxval value crypt_key direction : Z) (e : error) :
  cycle_walking_cipher minval maxval value crypt_key direction = inl e ->
  e = CycleLimitExceeded.
Proof.
  unfold cycle_walking_cipher.
  destruct (cycle_walk _ _ _ _ _ _ _ _) as [[result count]|];
    [destruct (count >=? walk_max)|]; congruence.
Qed.

(** *** Ranges below the full 64-bit range *)

(** Decrypting what encryption returned gives the value back. *)
Lemma range_decrypt_encrypt (v minval maxval crypt_key c : Z) (w w' : world) :
  representable_range minval maxval -> minval <= v <= maxval ->
  snd (range_encrypt_element v minval maxval crypt_key w) = inr c ->
  minval <= c <= maxval /\
  snd (range_decrypt_element c minval maxval crypt_key w') = inr v.
Proof.
  intros Hok Hv Hrun. rewrite range_encrypt_element_result in Hrun by exact Hv.
  pose proof (cycle_walking_cipher_in_range _ _ Hok _ _ _ _ Hv Hrun) as Hc.
  split; [exact Hc|].
  rewrite range_decrypt_element_result by exact Hc.
  apply (decrypt_encrypt _ _ Hok _ _ _ Hv Hrun).
Qed.

(** Encrypting what decryption returned gives the value back. *)
Lemma range_encrypt_decrypt (v minval maxval crypt_key c : Z) (w w' : world) :
  representable_range minval maxval -> minval <= v <= maxval ->
  snd (range_decrypt_element v minval maxval crypt_key w) = inr c ->
  minval <= c <= maxval /\
  snd (range_encrypt_element c minval maxval crypt_key w') = inr v.
Proof.
  intros Hok Hv Hrun. rewrite range_decrypt_element_result in Hrun by exact Hv.
  pose proof (cycle_walking_cipher_in_range _ _ Hok _ _ _ _ Hv Hrun) as Hc.
  split; [exact Hc|].
  rewrite range_encrypt_element_result by exact Hc.
  apply (encrypt_decrypt _ _ Hok _ _ _ Hv Hrun).
Qed.

(** Encryption maps the range into itself, without collisions. *)
Lemma range_encrypt_injective (v v' minval maxval crypt_key c : Z) (w w' : world) :
  representable_range minval maxval ->
  minval <= v <= maxval -> minval <= v' <= maxval ->
  snd (range_encrypt_element v minval maxval crypt_key w) = inr c ->
  snd (range_encrypt_element v' minval maxval crypt_key w') = inr c ->
  v = v'.
Proof.
  intros Hok Hv Hv' Hrun Hrun'.
  destruct (range_decrypt_encrypt _ _ _ _ _ _ w Hok Hv Hrun) as [_ Hback].
  destruct (range_decrypt_encrypt _ _ _ _ _ _ w Hok Hv' Hrun') as [_ Hback'].
  congruence.
Qed.

(** On a range of at most 2^20 values encryption and decryption always
    return a value. *)
Lemma range_encrypt_returns (v minval maxval crypt_key : Z) (w : world) :
  representable_range minval maxval -> minval <= v <= maxval ->
  maxval - minval + 1 <= 2 ^ 20 ->
  exists c, snd (range_encrypt_element v minval maxval crypt_key w) = inr c.
Proof.
  intros Hok Hv Hsmall. rewrite range_encrypt_element_result by exact Hv.
  apply (cycle_walking_cipher_returns _ _ Hok);
    [left; reflexivity | exact Hv | apply (few_values_outside _ _ Hok Hsmall)].
Qed.

Lemma range_decrypt_returns (v minval maxval crypt_key : Z) (w : world) :
  representable_range minval maxval -> minval <= v <= maxval ->
  maxval - minval + 1 <= 2 ^ 20 ->
  exists c, snd (range_decrypt_element v minval maxval crypt_key w) = inr c.
Proof.
  intros Hok Hv Hsmall. rewrite range_decrypt_element_result by exact Hv.
  apply (cycle_walking_cipher_returns _ _ Hok);
    [right; reflexivity | exact Hv | apply (few_values_outside _ _ Hok Hsmall)].
Qed.

(** On such a range every value of the range is the encryption of a value
    of the range: with [range_encrypt_injective], encryption is a bijection
    of the range onto itself. *)
Lemma range_encrypt_onto (c minval maxval crypt_key : Z) (w : world) :
  representable_range minval maxval -> minval <= c <= maxval ->
  maxval - minval + 1 <= 2 ^ 20 ->
  exists v, minval <= v <= maxval /\
            snd (range_encrypt_element v minval maxval crypt_key w) = inr c.
Proof.
  intros Hok Hc Hsmall.
  destruct (range_decrypt_returns c minval maxval crypt_key w Hok Hc Hsmall)
    as [v Hdec].
  destruct (range_encrypt_decrypt _ _ _ _ _ w w Hok Hc Hdec) as [Hv Henc].
  exists v. split; assumption.
Qed.

End EntryPoints.

(** ** The full 64-bit range

    For [minval = PG_INT64_MIN] and [maxval = PG_INT64_MAX] the interval
    size 2^64 does not fit the [uint64] it is stored in: [interval] is 0,
    the loop computing [hsz] stops at once, and the cipher works on 2-bit
    blocks while every result passes the range test. *)

Lemma full_range_interval :
  cipher_interval PG_INT64_MIN PG_INT64_MAX = 0 /\
  half_block_size (cipher_interval PG_INT64_MIN PG_INT64_MAX) = 1 /\
  walk_limit PG_INT64_MIN PG_INT64_MAX = 2 ^ 64 - 1.
Proof. repeat split. Qed.

Lemma low_bit_of_left_half (a b : Z) :
  Z.land (Z.lxor (Z.lxor 2 a) b) (2 ^ 1 - 1) = Z.land (Z.lxor (Z.lxor 0 a) b) (2 ^ 1 - 1).
Proof.
  change (2 ^ 1 - 1) with (Z.ones 1).
  apply Z.bits_inj'. intros n Hn. rewrite !Z.land_spec, !Z.lxor_spec.
  destruct (Z.eq_dec n 0) as [->|Hpos]; [reflexivity|].
  rewrite Z.ones_spec_high by lia. rewrite !andb_false_r. reflexivity.
Qed.

Section FullRange.

Context {host : Host}.

Lemma full_range_cipher (value crypt_key direction : Z) :
  exists q,
    q = attempt 1 (scramble_key crypt_key) direction
          (halves_pair (initial_halves 1 (2 ^ 1 - 1) PG_INT64_MIN value)) /\
    0 <= pair_result 1 q <= 3 /\
    cycle_walking_cipher PG_INT64_MIN PG_INT64_MAX value crypt_key direction
    = inr (PG_INT64_MIN + pair_result 1 q).
Proof.
  eexists. split; [reflexivity|].
  rewrite cycle_walking_cipher_bounded_walk. cbv zeta.
  destruct full_range_interval as (_ & -> & ->).
  rewrite (half_block_mask_ones 1) by lia.
  rewrite bounded_walk_first_hit.
  replace (Z.to_nat walk_max) with (S (Z.to_nat 999999))
    by (rewrite <- Z2Nat.inj_succ by lia; reflexivity).
  rewrite first_hit_succ.
  pose proof (attempt_always_in_block 1 (scramble_key crypt_key) ltac:(lia) direction
                (halves_pair (initial_halves 1 (2 ^ 1 - 1) PG_INT64_MIN value))) as Hq.
  revert Hq.
  generalize (attempt 1 (scramble_key crypt_key) direction
                (halves_pair (initial_halves 1 (2 ^ 1 - 1) PG_INT64_MIN value))).
  intros q Hq.
  pose proof (pair_result_range 1 ltac:(lia) q Hq) as Hres.
  replace (2 ^ (2 * 1)) with 4 in Hres by reflexivity.
  split; [lia|].
  assert (Hin : (pair_result 1 q <? 2 ^ 64 - 1 + 1) = true) by (apply Z.ltb_lt; lia).
  rewrite Hin. f_equal.
  apply (return_value_in_range PG_INT64_MIN PG_INT64_MAX);
    unfold is_int64, PG_INT64_MIN, PG_INT64_MAX; lia.
Qed.

Lemma full_range_first_round (crypt_key direction : Z) :
  attempt 1 crypt_key direction (2, 0) = attempt 1 crypt_key direction (0, 0).
Proof.
  assert (Hround : forall k, keyed_round 1 k (2, 0) = keyed_round 1 k (0, 0)).
  { intros k. unfold keyed_round. cbn [fst snd]. f_equal. apply low_bit_of_left_half. }
  unfold attempt, subkeys, round_indices. cbn [map].
  rewrite (keyed_rounds_cons 1 _ _ (2, 0)), Hround, <- keyed_rounds_cons.
  reflexivity.
Qed.

Lemma full_range_collision (crypt_key direction : Z) :
  cycle_walking_cipher PG_INT64_MIN PG_INT64_MAX (PG_INT64_MIN + 4) crypt_key direction
  = cycle_walking_cipher PG_INT64_MIN PG_INT64_MAX PG_INT64_MIN crypt_key direction.
Proof.
  destruct (full_range_cipher (PG_INT64_MIN + 4) crypt_key direction)
    as (q & Hq & _ & ->).
  destruct (full_range_cipher PG_INT64_MIN crypt_key direction)
    as (q' & Hq' & _ & ->).
  replace (halves_pair (initial_halves 1 (2 ^ 1 - 1) PG_INT64_MIN (PG_INT64_MIN + 4)))
    with (2, 0) in Hq by reflexivity.
  replace (halves_pair (initial_halves 1 (2 ^ 1 - 1) PG_INT64_MIN PG_INT64_MIN))
    with (0, 0) in Hq' by reflexivity.
  rewrite full_range_first_round in Hq. congruence.
Qed.

End FullRange.

(** ** C1 and C2: round trip and bijection

    Both hold in this model on every range whose interval size is below
    2^64 ([range_decrypt_encrypt], [range_encrypt_injective], with
    [range_encrypt_returns] for the ranges of at most 2^20 values); above
    2^62 values this rests on the value given to the undefined [1 << 32].
    Both fail on the full 64-bit range, where [hsz] is 1, for every key and
    every mixing function. *)

(** C1, on the full range.  For [minval = PG_INT64_MIN],
    [maxval = PG_INT64_MAX] and the value [minval + 4], encryption returns a
    value whose decryption is not [minval + 4]: decryption only ever
    returns one of the four smallest values of the range. *)
Theorem full_range_decrypt_differs {host : Host} (crypt_key : Z) (w w' : world) :
  exists c v,
    snd (range_encrypt_element (PG_INT64_MIN + 4) PG_INT64_MIN PG_INT64_MAX crypt_key w)
    = inr c /\
    snd (range_decrypt_element c PG_INT64_MIN PG_INT64_MAX crypt_key w') = inr v /\
    v <> PG_INT64_MIN + 4.
Proof.
  destruct (full_range_cipher (PG_INT64_MIN + 4) (to_uint64 crypt_key) 0)
    as (q & _ & Hq & Henc).
  set (c := PG_INT64_MIN + pair_result 1 q) in *.
  destruct (full_range_cipher c (to_uint64 crypt_key) 1) as (q' & _ & Hq' & Hdec).
  exists c, (PG_INT64_MIN + pair_result 1 q').
  assert (Hc : PG_INT64_MIN <= c <= PG_INT64_MAX)
    by (unfold c, PG_INT64_MIN, PG_INT64_MAX; lia).
  rewrite range_encrypt_element_result, range_decrypt_element_result
    by (assumption || (unfold PG_INT64_MIN, PG_INT64_MAX; lia)).
  split; [exact Henc | split; [exact Hdec | lia]].
Qed.

(** C2, on the full range.  For [minval = PG_INT64_MIN] and
    [maxval = PG_INT64_MAX] the two distinct values [minval] and
    [minval + 4] are encrypted to the same value, one of the four smallest
    values of the range. *)
Theorem full_range_encrypt_collides {host : Host} (crypt_key : Z) (w : world) :
  exists c,
    snd (range_encrypt_element PG_INT64_MIN PG_INT64_MIN PG_INT64_MAX crypt_key w)
    = inr c /\
    snd (range_encrypt_element (PG_INT64_MIN + 4) PG_INT64_MIN PG_INT64_MAX crypt_key w)
    = inr c /\
    PG_INT64_MIN <= c <= PG_INT64_MIN + 3.
Proof.
  destruct (full_range_cipher PG_INT64_MIN (to_uint64 crypt_key) 0)
    as (q & _ & Hq & Henc).
  exists (PG_INT64_MIN + pair_result 1 q).
  rewrite !range_encrypt_element_result by (unfold PG_INT64_MIN, PG_INT64_MAX; lia).
  rewrite full_range_collision.
  split; [exact Henc | split; [exact Henc | lia]].
Qed.

(** ** C9: the value check of the direct entry points *)

(** C9.  [range_encrypt_element] and [range_decrypt_element] fail with
    [ValueOutOfRange] exactly when the value is outside [minval, maxval]:
    outside, the error is returned on the unchanged world, so that no
    cipher run was made and nothing was done; inside (the two bounds
    included) the cipher is run once and the outcome is its own, never
    [ValueOutOfRange].  In particular [minval - 1] and [maxval + 1] are
    rejected. *)
Theorem value_check_before_cipher {host : Host}
        (v minval maxval crypt_key : Z) (w : world) :
  ((v < minval \/ v > maxval) ->
     range_encrypt_element v minval maxval crypt_key w = (w, inl ValueOutOfRange) /\
     range_decrypt_element v minval maxval crypt_key w = (w, inl ValueOutOfRange)) /\
  (minval <= v <= maxval ->
     snd (range_encrypt_element v minval maxval crypt_key w) <> inl ValueOutOfRange /\
     snd (range_decrypt_element v minval maxval crypt_key w) <> inl ValueOutOfRange /\
     cipher_runs (fst (range_encrypt_element v minval maxval crypt_key w))
     = CipherCall minval maxval v (to_uint64 crypt_key) 0 :: cipher_runs w /\
     cipher_runs (fst (range_decrypt_element v minval maxval crypt_key w))
     = CipherCall minval maxval v (to_uint64 crypt_key) 1 :: cipher_runs w) /\
  range_encrypt_element (minval - 1) minval maxval crypt_key w
  = (w, inl ValueOutOfRange) /\
  range_encrypt_element (maxval + 1) minval maxval crypt_key w
  = (w, inl ValueOutOfRange) /\
  range_decrypt_element (minval - 1) minval maxval crypt_key w
  = (w, inl ValueOutOfRange) /\
  range_decrypt_element (maxval + 1) minval maxval crypt_key w
  = (w, inl ValueOutOfRange).
Proof.
  assert (Hout : forall x, x < minval \/ x > maxval ->
            range_encrypt_element x minval maxval crypt_key w = (w, inl ValueOutOfRange) /\
            range_decrypt_element x minval maxval crypt_key w = (w, inl ValueOutOfRange)).
  { intros x Hx. unfold range_encrypt_element, range_decrypt_element.
    rewrite outside_true by exact Hx. split; reflexivity. }
  split; [apply Hout|]. split.
  - intros Hv.
    rewrite range_encrypt_element_result, range_decrypt_element_result by exact Hv.
    rewrite range_encrypt_element_inside, range_decrypt_element_inside by exact Hv.
    split; [|split; [|split]]; try reflexivity;
      intros Herr; apply cycle_walking_cipher_errors in Herr; discriminate.
  - pose proof (Hout (minval - 1) ltac:(lia)) as [Hlow_enc Hlow_dec].
    pose proof (Hout (maxval + 1) ltac:(lia)) as [Hhigh_enc Hhigh_dec].
    split; [exact Hlow_enc | split; [exact Hhigh_enc | split; assumption]].
Qed.

Lemma value_check_before_cipher_witness :
  let w := sample_world 0 999 0 in
  (1000 < 0 \/ 1000 > 999) /\ 0 <= 999 <= 999 /\
  @range_encrypt_element sample_host 1000 0 999 77 w = (w, inl ValueOutOfRange) /\
  @range_decrypt_element sample_host 1000 0 999 77 w = (w, inl ValueOutOfRange) /\
  snd (@range_encrypt_element sample_host 999 0 999 77 w) <> inl ValueOutOfRange.
Proof.
  intros w.
  assert (Hout : 1000 < 0 \/ 1000 > 999) by (right; lia).
  assert (Hin : 0 <= 999 <= 999) by lia.
  pose proof (proj1 (@value_check_before_cipher sample_host 1000 0 999 77 w) Hout)
    as [Henc Hdec].
  pose proof (proj1 (proj2 (@value_check_before_cipher sample_host 999 0 999 77 w)) Hin)
    as [Haccepted _].
  split; [exact Hout | split; [exact Hin | split; [exact Henc | split; assumption]]].
Defined.

(** ** Range validation *)

Lemma int64_add_exact (a b : Z) : is_int64 (a + b) -> int64_add a b = (a + b, false).
Proof.
  intros H. unfold int64_add. rewrite to_int64_small by exact H.
  apply in_int64_spec in H. rewrite H. reflexivity.
Qed.

Lemma int64_sub_exact (a b : Z) : is_int64 (a - b) -> int64_sub a b = (a - b, false).
Proof.
  intros H. unfold int64_sub. rewrite to_int64_small by exact H.
  apply in_int64_spec in H. rewrite H. reflexivity.
Qed.

Lemma int64_sub_wraps (a b : Z) : ~ is_int64 (a - b) -> snd (int64_sub a b) = true.
Proof.
  intros H. unfold int64_sub. cbn [snd].
  destruct (in_int64 (a - b)) eqn:E; [apply in_int64_spec in E; contradiction|].
  reflexivity.
Qed.

(** [check_sequence_range] never lets a signed operation wrap, and on
    [minv <= maxv] it tells whether at least 4 values fit. *)
Lemma check_sequence_range_exact (minv maxv : Z) :
  is_int64 minv -> is_int64 maxv ->
  snd (check_sequence_range minv maxv) = false /\
  (minv <= maxv -> fst (check_sequence_range minv maxv) = (maxv - minv >=? 3)).
Proof.
  unfold is_int64, PG_INT64_MIN, PG_INT64_MAX. intros Hmin Hmax.
  unfold check_sequence_range.
  destruct (Z.gtb_spec minv 0) as [Hpos|Hnpos].
  - rewrite int64_add_exact by (unfold is_int64, PG_INT64_MIN, PG_INT64_MAX; lia).
    assert (Hneg : (minv <? 0) = false) by (apply Z.ltb_ge; lia). rewrite Hneg.
    unfold ov_bind, ov_ret.
    destruct (Z.ltb_spec maxv (PG_INT64_MIN + minv)) as [Hfar|Hnear].
    + split; [reflexivity|]. unfold PG_INT64_MIN in Hfar. lia.
    + rewrite int64_sub_exact
        by (unfold is_int64, PG_INT64_MIN, PG_INT64_MAX in *; lia).
      split; [reflexivity|]. intros _. reflexivity.
  - unfold ov_bind at 1. unfold ov_ret at 1.
    destruct (Z.ltb_spec minv 0) as [Hneg|Hzero].
    + rewrite int64_add_exact by (unfold is_int64, PG_INT64_MIN, PG_INT64_MAX; lia).
      unfold ov_bind, ov_ret.
      destruct (Z.gtb_spec maxv (PG_INT64_MAX + minv)) as [Hfar|Hnear].
      * split; [reflexivity|]. intros _. symmetry. apply Z.geb_le.
        unfold PG_INT64_MAX in Hfar. lia.
      * rewrite int64_sub_exact
          by (unfold is_int64, PG_INT64_MIN, PG_INT64_MAX in *; lia).
        split; [reflexivity|]. intros _. reflexivity.
    + rewrite int64_sub_exact by (unfold is_int64, PG_INT64_MIN, PG_INT64_MAX; lia).
      unfold ov_bind, ov_ret. split; [reflexivity|]. intros _. reflexivity.
Qed.

Lemma reverse_permute_too_short_exact (minval maxval : Z) :
  is_int64 (maxval - minval) ->
  reverse_permute_too_short minval maxval = (maxval - minval <? 4, false).
Proof.
  intros H. unfold reverse_permute_too_short.
  rewrite int64_sub_exact by exact H. reflexivity.
Qed.

(** ** The sequence entry points, step by step *)

Section SequenceEntryPoints.

Context {host : Host}.
Variables (seq_oid crypt_key minval maxval : Z) (w : world).
Hypothesis parameters : pg_sequence_parameters (db w) seq_oid = Some (minval, maxval).

Lemma permute_nextval_too_short :
  fst (check_sequence_range minval maxval) = false ->
  permute_nextval seq_oid crypt_key w = (w, inl RangeTooSmall).
Proof.
  intros Hshort. unfold permute_nextval, bind, sequence_parameters.
  rewrite parameters. cbn [fst snd]. rewrite Hshort. reflexivity.
Qed.

Lemma permute_nextval_run (v : Z) (d : Database) :
  fst (check_sequence_range minval maxval) = true ->
  nextval_oid (db w) seq_oid = Some (v, d) ->
  permute_nextval seq_oid crypt_key w
  = let w' := {| db := d; cipher_runs := cipher_runs w |} in
    if (v <? minval) || (v >? maxval) then (w', inl ValueOutOfRange)
    else ({| db := d;
             cipher_runs := CipherCall minval maxval v (to_uint64 crypt_key) 0
                              :: cipher_runs w |},
          cycle_walking_cipher minval maxval v (to_uint64 crypt_key) 0).
Proof.
  intros Hlong Hnext. unfold permute_nextval, bind, sequence_parameters.
  rewrite parameters. cbn [fst snd]. rewrite Hlong. cbn [negb].
  unfold sequence_nextval. rewrite Hnext. cbv zeta.
  destruct ((v <? minval) || (v >? maxval)); reflexivity.
Qed.

Lemma permute_nextval_not_too_short :
  fst (check_sequence_range minval maxval) = true ->
  snd (permute_nextval seq_oid crypt_key w) <> inl RangeTooSmall.
Proof.
  intros Hlong. unfold permute_nextval, bind, sequence_parameters.
  rewrite parameters. cbn [fst snd]. rewrite Hlong. cbn [negb].
  unfold sequence_nextval.
  destruct (nextval_oid (db w) seq_oid) as [[v d]|]; [|discriminate].
  destruct ((v <? minval) || (v >? maxval)); [discriminate|].
  unfold run_cipher.
  generalize (cycle_walking_cipher_errors minval maxval v (to_uint64 crypt_key) 0).
  generalize (cycle_walking_cipher minval maxval v (to_uint64 crypt_key) 0).
  intros outcome Herr Hout. cbn [snd] in Hout.
  specialize (Herr _ Hout). discriminate.
Qed.

Lemma reverse_permute_too_short_error (value : Z) :
  fst (reverse_permute_too_short minval maxval) = true ->
  reverse_permute seq_oid value crypt_key w = (w, inl RangeTooSmall).
Proof.
  intros Hshort. unfold reverse_permute, bind, sequence_parameters.
  rewrite parameters. cbn [fst snd]. rewrite Hshort. reflexivity.
Qed.

Lemma reverse_permute_run (value : Z) :
  fst (reverse_permute_too_short minval maxval) = false ->
  reverse_permute seq_oid value crypt_key w
  = if (value <? minval) || (value >? maxval) then (w, inl ValueOutOfRange)
    else ({| db := db w;
             cipher_runs := CipherCall minval maxval value (to_uint64 crypt_key) 1
                              :: cipher_runs w |},
          cycle_walking_cipher minval maxval value (to_uint64 crypt_key) 1).
Proof.
  intros Hlong. unfold reverse_permute, bind, sequence_parameters.
  rewrite parameters. cbn [fst snd]. rewrite Hlong.
  destruct ((value <? minval) || (value >? maxval)); reflexivity.
Qed.

Lemma reverse_permute_not_too_short (value : Z) :
  fst (reverse_permute_too_short minval maxval) = false ->
  snd (reverse_permute seq_oid value crypt_key w) <> inl RangeTooSmall.
Proof.
  intros Hlong. rewrite reverse_permute_run by exact Hlong.
  destruct ((value <? minval) || (value >? maxval)); [discriminate|].
  generalize (cycle_walking_cipher_errors minval maxval value (to_uint64 crypt_key) 1).
  generalize (cycle_walking_cipher minval maxval value (to_uint64 crypt_key) 1).
  intros outcome Herr Hout. cbn [snd] in Hout.
  specialize (Herr _ Hout). discriminate.
Qed.

End SequenceEntryPoints.

Lemma direct_entry_points_no_range_check {host : Host}
      (v minval maxval crypt_key : Z) (w : world) :
  snd (range_encrypt_element v minval maxval crypt_key w) <> inl RangeTooSmall /\
  snd (range_decrypt_element v minval maxval crypt_key w) <> inl RangeTooSmall.
Proof.
  unfold range_encrypt_element, range_decrypt_element.
  destruct ((v <? minval) || (v >? maxval)); [split; discriminate|].
  unfold run_cipher.
  generalize (cycle_walking_cipher_errors minval maxval v (to_uint64 crypt_key) 0).
  generalize (cycle_walking_cipher minval maxval v (to_uint64 crypt_key) 0).
  generalize (cycle_walking_cipher_errors minval maxval v (to_uint64 crypt_key) 1).
  generalize (cycle_walking_cipher minval maxval v (to_uint64 crypt_key) 1).
  intros dec Hdec enc Henc. cbn [snd].
  split; intros Hout; [specialize (Henc _ Hout) | specialize (Hdec _ Hout)];
    discriminate.
Qed.

(** ** C3: the range-size check of the entry points *)

(** C3, counterexample.  On the 3-element range [0, 2] neither
    [range_encrypt_element] nor [range_decrypt_element] fails with
    [RangeTooSmall] (they run the cipher), and on a sequence of exactly 4
    elements, [0, 3], [reverse_permute] fails with [RangeTooSmall]. *)
Lemma range_size_check_not_uniform :
  snd (@range_encrypt_element sample_host 0 0 2 77 (sample_world 0 2 0))
  <> inl RangeTooSmall /\
  snd (@range_decrypt_element sample_host 0 0 2 77 (sample_world 0 2 0))
  <> inl RangeTooSmall /\
  snd (@reverse_permute sample_host 1 0 77 (sample_world 0 3 0)) = inl RangeTooSmall.
Proof.
  split; [|split]; [vm_compute; discriminate | vm_compute; discriminate |].
  vm_compute. reflexivity.
Qed.

(** C3, amended.  [permute_nextval] accepts a sequence of exactly 4
    elements and rejects one of 3 elements with [RangeTooSmall], on the
    unchanged world: before any cipher run and before the sequence is
    advanced.  [reverse_permute] accepts a sequence of 5 elements and
    rejects one of 3 elements with [RangeTooSmall], on the unchanged
    world.  [range_encrypt_element] and [range_decrypt_element] make no
    range-size check: they never fail with [RangeTooSmall]. *)
Theorem range_size_checks {host : Host}
        (seq_oid value crypt_key minval maxval : Z) (w : world) :
  pg_sequence_parameters (db w) seq_oid = Some (minval, maxval) ->
  is_int64 minval -> is_int64 maxval ->
  (maxval - minval = 3 ->
     snd (permute_nextval seq_oid crypt_key w) <> inl RangeTooSmall) /\
  (maxval - minval = 2 ->
     permute_nextval seq_oid crypt_key w = (w, inl RangeTooSmall)) /\
  (maxval - minval = 4 ->
     snd (reverse_permute seq_oid value crypt_key w) <> inl RangeTooSmall) /\
  (maxval - minval = 2 ->
     reverse_permute seq_oid value crypt_key w = (w, inl RangeTooSmall)) /\
  (forall v lo hi,
     snd (range_encrypt_element v lo hi crypt_key w) <> inl RangeTooSmall /\
     snd (range_decrypt_element v lo hi crypt_key w) <> inl RangeTooSmall).
Proof.
  intros Hparams Hmin Hmax.
  destruct (check_sequence_range_exact minval maxval Hmin Hmax) as [_ Hcheck].
  split; [|split; [|split; [|split]]].
  - intros Hsize. apply (permute_nextval_not_too_short _ _ minval maxval _ Hparams).
    rewrite Hcheck by lia. rewrite Hsize. reflexivity.
  - intros Hsize. apply (permute_nextval_too_short _ _ minval maxval _ Hparams).
    rewrite Hcheck by lia. rewrite Hsize. reflexivity.
  - intros Hsize. apply (reverse_permute_not_too_short _ _ minval maxval _ Hparams).
    rewrite reverse_permute_too_short_exact
      by (rewrite Hsize; unfold is_int64, PG_INT64_MIN, PG_INT64_MAX; lia).
    rewrite Hsize. reflexivity.
  - intros Hsize. apply (reverse_permute_too_short_error _ _ minval maxval _ Hparams).
    rewrite reverse_permute_too_short_exact
      by (rewrite Hsize; unfold is_int64, PG_INT64_MIN, PG_INT64_MAX; lia).
    rewrite Hsize. reflexivity.
  - intros v lo hi. apply direct_entry_points_no_range_check.
Qed.

Lemma range_size_checks_witness :
  let w := sample_world 5 8 5 in
  (8 - 5 = 3 ->
     snd (@permute_nextval sample_host 1 77 w) <> inl RangeTooSmall) /\
  (8 - 5 = 2 ->
     @permute_nextval sample_host 1 77 w = (w, inl RangeTooSmall)) /\
  (8 - 5 = 4 ->
     snd (@reverse_permute sample_host 1 6 77 w) <> inl RangeTooSmall) /\
  (8 - 5 = 2 ->
     @reverse_permute sample_host 1 6 77 w = (w, inl RangeTooSmall)) /\
  (forall v lo hi,
     snd (@range_encrypt_element sample_host v lo hi 77 w) <> inl RangeTooSmall /\
     snd (@range_decrypt_element sample_host v lo hi 77 w) <> inl RangeTooSmall).
Proof.
  apply (@range_size_checks sample_host 1 6 77 5 8 (sample_world 5 8 5));
    [reflexivity | | ]; unfold is_int64, PG_INT64_MIN, PG_INT64_MAX; lia.
Defined.

(** ** C4: validation of the full 64-bit range *)

(** C4, on the decryption path.  For a sequence with
    [minval = PG_INT64_MIN] and [maxval = PG_INT64_MAX] the validation of
    [permute_nextval] reports the range as valid without any wrap-around,
    but the test [maxval - minval < 4] of [reverse_permute] wraps (the
    difference becomes -1) and the call fails with [RangeTooSmall]. *)
Theorem full_range_validation {host : Host} (seq_oid value crypt_key : Z) (w : world) :
  pg_sequence_parameters (db w) seq_oid = Some (PG_INT64_MIN, PG_INT64_MAX) ->
  check_sequence_range PG_INT64_MIN PG_INT64_MAX = (true, false) /\
  int64_sub PG_INT64_MAX PG_INT64_MIN = (-1, true) /\
  reverse_permute_too_short PG_INT64_MIN PG_INT64_MAX = (true, true) /\
  reverse_permute seq_oid value crypt_key w = (w, inl RangeTooSmall).
Proof.
  intros Hparams. split; [reflexivity|]. split; [reflexivity|]. split; [reflexivity|].
  apply (reverse_permute_too_short_error _ _ _ _ _ Hparams). reflexivity.
Qed.

Lemma full_range_validation_witness :
  let w := sample_world PG_INT64_MIN PG_INT64_MAX 0 in
  check_sequence_range PG_INT64_MIN PG_INT64_MAX = (true, false) /\
  int64_sub PG_INT64_MAX PG_INT64_MIN = (-1, true) /\
  reverse_permute_too_short PG_INT64_MIN PG_INT64_MAX = (true, true) /\
  @reverse_permute sample_host 1 0 77 w = (w, inl RangeTooSmall).
Proof.
  apply (@full_range_validation sample_host 1 0 77
           (sample_world PG_INT64_MIN PG_INT64_MAX 0)).
  reflexivity.
Defined.

(** ** C10: the sequence entry points against the direct ones *)

(** C10, counterexample.  On the sequence [0, 2], which yields 0 next, and
    for the in-range value 0, [permute_nextval] does not return what
    [range_encrypt_element] returns: it fails with [RangeTooSmall], while
    the direct entry point encrypts. *)
Lemma short_sequence_not_encrypted :
  let w := sample_world 0 2 0 in
  @nextval_oid sample_host (db w) 1 = Some (0, PlainSequence 0 2 1) /\
  snd (@permute_nextval sample_host 1 77 w) = inl RangeTooSmall /\
  snd (@permute_nextval sample_host 1 77 w)
  <> snd (@range_encrypt_element sample_host 0 0 2 77 w).
Proof.
  split; [reflexivity|]. split; [vm_compute; reflexivity|].
  vm_compute. discriminate.
Qed.

(** C10, amended.  For the same bounds, key and in-range value [v]:
    whenever the sequence passes [check_sequence_range],
    [permute_nextval], applied when the sequence yields [v], returns
    exactly what [range_encrypt_element] returns for [v]; and whenever both
    succeed, [reverse_permute] on [v] returns exactly what
    [range_decrypt_element] returns (they agree as soon as the sequence
    passes the test of [reverse_permute]).  In each case the two entry
    points make the same single call of [cycle_walking_cipher], with
    direction 0 to encrypt and 1 to decrypt. *)
Theorem sequence_and_direct_entry_points {host : Host}
        (seq_oid crypt_key minval maxval v : Z) (w : world) (d : Database) :
  pg_sequence_parameters (db w) seq_oid = Some (minval, maxval) ->
  nextval_oid (db w) seq_oid = Some (v, d) ->
  minval <= v <= maxval ->
  (fst (check_sequence_range minval maxval) = true ->
     snd (permute_nextval seq_oid crypt_key w)
     = snd (range_encrypt_element v minval maxval crypt_key w) /\
     cipher_runs (fst (permute_nextval seq_oid crypt_key w))
     = CipherCall minval maxval v (to_uint64 crypt_key) 0 :: cipher_runs w /\
     cipher_runs (fst (range_encrypt_element v minval maxval crypt_key w))
     = CipherCall minval maxval v (to_uint64 crypt_key) 0 :: cipher_runs w) /\
  (forall x y,
     snd (reverse_permute seq_oid v crypt_key w) = inr x ->
     snd (range_decrypt_element v minval maxval crypt_key w) = inr y ->
     x = y) /\
  (fst (reverse_permute_too_short minval maxval) = false ->
     snd (reverse_permute seq_oid v crypt_key w)
     = snd (range_decrypt_element v minval maxval crypt_key w) /\
     cipher_runs (fst (reverse_permute seq_oid v crypt_key w))
     = CipherCall minval maxval v (to_uint64 crypt_key) 1 :: cipher_runs w /\
     cipher_runs (fst (range_decrypt_element v minval maxval crypt_key w))
     = CipherCall minval maxval v (to_uint64 crypt_key) 1 :: cipher_runs w).
Proof.
  intros Hparams Hnext Hv.
  assert (Hdecrypt :
    fst (reverse_permute_too_short minval maxval) = false ->
    snd (reverse_permute seq_oid v crypt_key w)
    = snd (range_decrypt_element v minval maxval crypt_key w) /\
    cipher_runs (fst (reverse_permute seq_oid v crypt_key w))
    = CipherCall minval maxval v (to_uint64 crypt_key) 1 :: cipher_runs w /\
    cipher_runs (fst (range_decrypt_element v minval maxval crypt_key w))
    = CipherCall minval maxval v (to_uint64 crypt_key) 1 :: cipher_runs w).
  { intros Hlong.
    rewrite (reverse_permute_run _ _ minval maxval _ Hparams v Hlong).
    rewrite range_decrypt_element_inside by exact Hv.
    rewrite outside_false by exact Hv.
    generalize (cycle_walking_cipher minval maxval v (to_uint64 crypt_key) 1).
    intros outcome. split; [|split]; reflexivity. }
  split; [|split; [|exact Hdecrypt]].
  - intros Hlong.
    rewrite (permute_nextval_run _ _ minval maxval _ Hparams v d Hlong Hnext).
    rewrite range_encrypt_element_inside by exact Hv.
    cbv zeta. rewrite outside_false by exact Hv.
    generalize (cycle_walking_cipher minval maxval v (to_uint64 crypt_key) 0).
    intros outcome. split; [|split]; reflexivity.
  - intros x y Hrev Hdirect.
    destruct (fst (reverse_permute_too_short minval maxval)) eqn:Eshort.
    + rewrite (reverse_permute_too_short_error _ _ minval maxval _ Hparams v Eshort)
        in Hrev.
      discriminate.
    + destruct (Hdecrypt eq_refl) as [Hsame _]. congruence.
Qed.

Lemma sequence_and_direct_entry_points_witness :
  let w := sample_world 0 999 0 in
  (fst (check_sequence_range 0 999) = true ->
     snd (@permute_nextval sample_host 1 77 w)
     = snd (@range_encrypt_element sample_host 0 0 999 77 w) /\
     cipher_runs (fst (@permute_nextval sample_host 1 77 w))
     = CipherCall 0 999 0 (to_uint64 77) 0 :: cipher_runs w /\
     cipher_runs (fst (@range_encrypt_element sample_host 0 0 999 77 w))
     = CipherCall 0 999 0 (to_uint64 77) 0 :: cipher_runs w) /\
  (forall x y,
     snd (@reverse_permute sample_host 1 0 77 w) = inr x ->
     snd (@range_decrypt_element sample_host 0 0 999 77 w) = inr y ->
     x = y) /\
  (fst (reverse_permute_too_short 0 999) = false ->
     snd (@reverse_permute sample_host 1 0 77 w)
     = snd (@range_decrypt_element sample_host 0 0 999 77 w) /\
     cipher_runs (fst (@reverse_permute sample_host 1 0 77 w))
     = CipherCall 0 999 0 (to_uint64 77) 1 :: cipher_runs w /\
     cipher_runs (fst (@range_decrypt_element sample_host 0 0 999 77 w))
     = CipherCall 0 999 0 (to_uint64 77) 1 :: cipher_runs w).
Proof.
  apply (@sequence_and_direct_entry_points sample_host 1 77 0 999 0
           (sample_world 0 999 0) (PlainSequence 0 999 1));
    [reflexivity | reflexivity | lia].
Defined.

(** ** The scenarios of the specification, evaluated

    With PostgreSQL's mixing function and the key 0x123456789ABCDEF0. *)

Example degenerate_range_permuted :
  map (fun v => snd (@range_encrypt_element sample_host v 5 8 0x123456789ABCDEF0
                       (sample_world 5 8 5)))
      [5; 6; 7; 8]
  = [inr 6; inr 8; inr 5; inr 7].
Proof. vm_compute. reflexivity. Qed.

Example thousand_values_round_trip :
  snd (@range_encrypt_element sample_host 0 0 999 0x123456789ABCDEF0
         (sample_world 0 999 0)) = inr 531 /\
  snd (@range_decrypt_element sample_host 531 0 999 0x123456789ABCDEF0
         (sample_world 0 999 0)) = inr 0.
Proof. split; vm_compute; reflexivity. Qed.

Example full_range_collision_evaluated :
  snd (@range_encrypt_element sample_host PG_INT64_MIN PG_INT64_MIN PG_INT64_MAX 77
         (sample_world 0 999 0)) = inr (PG_INT64_MIN + 1) /\
  snd (@range_encrypt_element sample_host (PG_INT64_MIN + 4) PG_INT64_MIN PG_INT64_MAX 77
         (sample_world 0 999 0)) = inr (PG_INT64_MIN + 1).
Proof. split; vm_compute; reflexivity. Qed.

(** * Further properties of the code *)

Lemma snd_pair_eq {A B : Type} (a : A) (b : B) : snd (a, b) = b.
Proof. reflexivity. Qed.

Lemma fst_pair_eq {A B : Type} (a : A) (b : B) : fst (a, b) = a.
Proof. reflexivity. Qed.

Lemma representable_of_int64_difference (minval maxval : Z) :
  is_int64 minval -> is_int64 maxval -> minval <= maxval ->
  maxval - minval <= PG_INT64_MAX ->
  representable_range minval maxval.
Proof.
  intros Hmin Hmax Hle Hdiff.
  assert (Hsize : maxval - minval + 1 < 2 ^ 64) by (unfold PG_INT64_MAX in Hdiff; lia).
  exact (conj Hmin (conj Hmax (conj Hle Hsize))).
Qed.

Section ResultInRange.

Context {host : Host}.

(** Whatever the cipher returns lies between the bounds, on every range
    with [minval <= maxval], the full 64-bit range included, and from any
    starting value. *)
Lemma cycle_walking_cipher_result_in_range
      (minval maxval value crypt_key direction result : Z) :
  is_int64 minval -> is_int64 maxval -> minval <= maxval ->
  cycle_walking_cipher minval maxval value crypt_key direction = inr result ->
  minval <= result <= maxval.
Proof.
  intros Hmin Hmax Hle Hrun.
  pose proof (half_block_size_spec (cipher_interval minval maxval)) as (Hh & _).
  rewrite cycle_walking_cipher_bounded_walk in Hrun. cbv zeta in Hrun.
  rewrite walk_limit_exact, half_block_mask_ones in Hrun by (assumption || lia).
  rewrite bounded_walk_first_hit in Hrun.
  destruct (first_hit _ _ _ _) as [q|] eqn:Ewalk; [|discriminate].
  injection Hrun as <-.
  assert (Hh' : 0 <= half_block_size (cipher_interval minval maxval) <= 32) by lia.
  destruct (first_hit_in_block _ _ _ _ _ _ _ Hh' Ewalk) as [Hq Hhit].
  pose proof (pair_result_range _ Hh q Hq) as Hres.
  apply Z.ltb_lt in Hhit.
  rewrite (return_value_in_range minval maxval) by (assumption || lia).
  lia.
Qed.

Lemma range_encrypt_element_success (v minval maxval crypt_key c : Z) (w : world) :
  snd (range_encrypt_element v minval maxval crypt_key w) = inr c ->
  minval <= v <= maxval /\
  cycle_walking_cipher minval maxval v (to_uint64 crypt_key) 0 = inr c.
Proof.
  unfold range_encrypt_element. intros Hrun.
  destruct ((v <? minval) || (v >? maxval)) eqn:Eout; [discriminate|].
  apply orb_false_iff in Eout. destruct Eout as [Hlow Hhigh].
  apply Z.ltb_ge in Hlow. rewrite Z.gtb_ltb in Hhigh. apply Z.ltb_ge in Hhigh.
  split; [lia|].
  unfold run_cipher in Hrun. rewrite snd_pair_eq in Hrun. exact Hrun.
Qed.

Lemma range_decrypt_element_success (v minval maxval crypt_key c : Z) (w : world) :
  snd (range_decrypt_element v minval maxval crypt_key w) = inr c ->
  minval <= v <= maxval /\
  cycle_walking_cipher minval maxval v (to_uint64 crypt_key) 1 = inr c.
Proof.
  unfold range_decrypt_element. intros Hrun.
  destruct ((v <? minval) || (v >? maxval)) eqn:Eout; [discriminate|].
  apply orb_false_iff in Eout. destruct Eout as [Hlow Hhigh].
  apply Z.ltb_ge in Hlow. rewrite Z.gtb_ltb in Hhigh. apply Z.ltb_ge in Hhigh.
  split; [lia|].
  unfold run_cipher in Hrun. rewrite snd_pair_eq in Hrun. exact Hrun.
Qed.

End ResultInRange.

(** ** The direct entry points on a range of at most 2^62 values *)

Lemma moderate_range_representable (minval maxval : Z) :
  moderate_range minval maxval -> representable_range minval maxval.
Proof.
  intros (Hmin & Hmax & Hle & Hsize).
  assert (Hbelow : maxval - minval + 1 < 2 ^ 64) by lia.
  exact (conj Hmin (conj Hmax (conj Hle Hbelow))).
Qed.

(** On such a range the half-block width is at most 31: the mask is
    computed by a shift of fewer than 32 bits. *)
Lemma moderate_range_half_block (minval maxval : Z) :
  moderate_range minval maxval ->
  1 <= half_block_size (cipher_interval minval maxval) <= 31.
Proof.
  intros (Hmin & Hmax & Hle & Hsize).
  pose proof (half_block_size_spec (cipher_interval minval maxval)) as (Hh & _ & Hbelow).
  set (hsz := half_block_size (cipher_interval minval maxval)) in *.
  rewrite cipher_interval_exact in Hbelow by (assumption || lia).
  destruct (Z.eq_dec hsz 32) as [H32|Hne]; [|lia].
  assert (H31 : 1 <= 31 < hsz) by lia.
  pose proof (Hbelow 31 H31) as Hcontra.
  change (2 ^ (2 * 31)) with (2 ^ 62) in Hcontra. lia.
Qed.

Section DirectRoundTrip.

Context {host : Host}.
Variables minval maxval crypt_key : Z.
Hypothesis range_ok : representable_range minval maxval.

Lemma encrypt_success_decrypts (v c : Z) (w : world) :
  snd (range_encrypt_element v minval maxval crypt_key w) = inr c ->
  minval <= c <= maxval /\
  cycle_walking_cipher minval maxval c (to_uint64 crypt_key) 1 = inr v.
Proof.
  intros Hrun.
  apply range_encrypt_element_success in Hrun. destruct Hrun as [Hv Hrun].
  split.
  - exact (cycle_walking_cipher_in_range _ _ range_ok _ _ _ _ Hv Hrun).
  - exact (decrypt_encrypt _ _ range_ok _ _ _ Hv Hrun).
Qed.

Lemma decrypt_success_encrypts (c v : Z) (w : world) :
  snd (range_decrypt_element c minval maxval crypt_key w) = inr v ->
  minval <= v <= maxval /\
  cycle_walking_cipher minval maxval v (to_uint64 crypt_key) 0 = inr c.
Proof.
  intros Hrun.
  apply range_decrypt_element_success in Hrun. destruct Hrun as [Hc Hrun].
  split.
  - exact (cycle_walking_cipher_in_range _ _ range_ok _ _ _ _ Hc Hrun).
  - exact (encrypt_decrypt _ _ range_ok _ _ _ Hc Hrun).
Qed.

End DirectRoundTrip.

(** X1.  On a range of at most 2^62 values, when
    [range_encrypt_element] returns [c] for a value [v], [c] lies in the
    range and [range_decrypt_element] with the same range and key returns
    [v] for [c]. *)
Theorem decrypt_undoes_encrypt {host : Host}
        (v minval maxval crypt_key c : Z) (w w' : world) :
  moderate_range minval maxval ->
  snd (range_encrypt_element v minval maxval crypt_key w) = inr c ->
  minval <= c <= maxval /\
  snd (range_decrypt_element c minval maxval crypt_key w') = inr v.
Proof.
  intros Hmoderate Hrun.
  pose proof (moderate_range_representable _ _ Hmoderate) as Hok.
  destruct (encrypt_success_decrypts _ _ _ Hok _ _ _ Hrun) as [Hc Hback].
  split; [exact Hc|].
  rewrite range_decrypt_element_result by exact Hc.
  exact Hback.
Qed.

Lemma decrypt_undoes_encrypt_witness :
  0 <= 531 <= 999 /\
  snd (@range_decrypt_element sample_host 531 0 999 0x123456789ABCDEF0
         (sample_world 0 999 1)) = inr 0.
Proof.
  apply (@decrypt_undoes_encrypt sample_host 0 0 999 0x123456789ABCDEF0 531
           (sample_world 0 999 0) (sample_world 0 999 1)).
  - unfold moderate_range, is_int64, PG_INT64_MIN, PG_INT64_MAX. lia.
  - vm_compute. reflexivity.
Defined.

(** X2.  On a range of at most 2^62 values, when
    [range_decrypt_element] returns [v] for a value [c], [v] lies in the
    range and [range_encrypt_element] with the same range and key returns
    [c] for [v]: every value that can be decrypted is the encryption of
    what it decrypts to. *)
Theorem encrypt_undoes_decrypt {host : Host}
        (c minval maxval crypt_key v : Z) (w w' : world) :
  moderate_range minval maxval ->
  snd (range_decrypt_element c minval maxval crypt_key w) = inr v ->
  minval <= v <= maxval /\
  snd (range_encrypt_element v minval maxval crypt_key w') = inr c.
Proof.
  intros Hmoderate Hrun.
  pose proof (moderate_range_representable _ _ Hmoderate) as Hok.
  destruct (decrypt_success_encrypts _ _ _ Hok _ _ _ Hrun) as [Hv Hback].
  split; [exact Hv|].
  rewrite range_encrypt_element_result by exact Hv.
  exact Hback.
Qed.

Lemma encrypt_undoes_decrypt_witness :
  0 <= 900 <= 999 /\
  snd (@range_encrypt_element sample_host 900 0 999 0x123456789ABCDEF0
         (sample_world 0 999 1)) = inr 0.
Proof.
  apply (@encrypt_undoes_decrypt sample_host 0 0 999 0x123456789ABCDEF0 900
           (sample_world 0 999 0) (sample_world 0 999 1)).
  - unfold moderate_range, is_int64, PG_INT64_MIN, PG_INT64_MAX. lia.
  - vm_compute. reflexivity.
Defined.

(** X3.  On a range of at most 2^62 values two calls of
    [range_encrypt_element] with the same range and key that return the
    same value were given the same value; so were two such calls of
    [range_decrypt_element]. *)
Theorem no_two_values_share_a_result {host : Host}
        (v v' minval maxval crypt_key c : Z) (w w' : world) :
  moderate_range minval maxval ->
  (snd (range_encrypt_element v minval maxval crypt_key w) = inr c /\
   snd (range_encrypt_element v' minval maxval crypt_key w') = inr c) \/
  (snd (range_decrypt_element v minval maxval crypt_key w) = inr c /\
   snd (range_decrypt_element v' minval maxval crypt_key w') = inr c) ->
  v = v'.
Proof.
  intros Hmoderate [[Hrun Hrun']|[Hrun Hrun']];
    pose proof (moderate_range_representable _ _ Hmoderate) as Hok.
  - destruct (encrypt_success_decrypts _ _ _ Hok _ _ _ Hrun) as [_ Hback].
    destruct (encrypt_success_decrypts _ _ _ Hok _ _ _ Hrun') as [_ Hback'].
    congruence.
  - destruct (decrypt_success_encrypts _ _ _ Hok _ _ _ Hrun) as [_ Hback].
    destruct (decrypt_success_encrypts _ _ _ Hok _ _ _ Hrun') as [_ Hback'].
    congruence.
Qed.

Lemma no_two_values_share_a_result_witness :
  snd (@range_encrypt_element sample_host 0 0 999 0x123456789ABCDEF0
         (sample_world 0 999 0)) = inr 531 /\
  0 = 0.
Proof.
  split; [vm_compute; reflexivity|].
  apply (@no_two_values_share_a_result sample_host 0 0 0 999 0x123456789ABCDEF0 531
           (sample_world 0 999 0) (sample_world 0 999 1)).
  - unfold moderate_range, is_int64, PG_INT64_MIN, PG_INT64_MAX. lia.
  - left. split; vm_compute; reflexivity.
Defined.

(** X4.  On a range of at most 2^20 values [range_encrypt_element] and
    [range_decrypt_element] return a value for every value of the range:
    the walk cannot reach its limit, since the values of the working
    domain outside the range are fewer than [walk_max]. *)
Theorem small_range_never_exceeds_walk_limit {host : Host}
        (v minval maxval crypt_key : Z) (w : world) :
  is_int64 minval -> is_int64 maxval ->
  minval <= v <= maxval ->
  maxval - minval + 1 <= 2 ^ 20 ->
  (exists c, snd (range_encrypt_element v minval maxval crypt_key w) = inr c) /\
  (exists c, snd (range_decrypt_element v minval maxval crypt_key w) = inr c).
Proof.
  intros Hmin Hmax Hv Hsmall.
  assert (Hok : representable_range minval maxval).
  { assert (Hsize : maxval - minval + 1 < 2 ^ 64) by lia.
    assert (Hle : minval <= maxval) by lia.
    exact (conj Hmin (conj Hmax (conj Hle Hsize))). }
  pose proof (few_values_outside _ _ Hok Hsmall) as Hfew.
  rewrite range_encrypt_element_result, range_decrypt_element_result by exact Hv.
  split; apply (cycle_walking_cipher_returns _ _ Hok); auto.
Qed.

Lemma small_range_never_exceeds_walk_limit_witness :
  (exists c, snd (@range_encrypt_element sample_host 7 5 8 77 (sample_world 5 8 5))
             = inr c) /\
  (exists c, snd (@range_decrypt_element sample_host 7 5 8 77 (sample_world 5 8 5))
             = inr c).
Proof.
  apply (@small_range_never_exceeds_walk_limit sample_host 7 5 8 77 (sample_world 5 8 5));
    unfold is_int64, PG_INT64_MIN, PG_INT64_MAX; lia.
Defined.

(** X5.  On a range of at most 2^20 values every value of the range is
    returned by [range_encrypt_element] for some value of the range: with
    X3, encryption is a bijection of the range onto itself. *)
Theorem small_range_encryption_onto {host : Host}
        (c minval maxval crypt_key : Z) (w : world) :
  is_int64 minval -> is_int64 maxval ->
  minval <= c <= maxval ->
  maxval - minval + 1 <= 2 ^ 20 ->
  exists v, minval <= v <= maxval /\
            snd (range_encrypt_element v minval maxval crypt_key w) = inr c.
Proof.
  intros Hmin Hmax Hc Hsmall.
  assert (Hok : representable_range minval maxval).
  { assert (Hsize : maxval - minval + 1 < 2 ^ 64) by lia.
    assert (Hle : minval <= maxval) by lia.
    exact (conj Hmin (conj Hmax (conj Hle Hsize))). }
  destruct (range_decrypt_returns c minval maxval crypt_key w Hok Hc Hsmall)
    as [v Hdec].
  destruct (decrypt_success_encrypts _ _ _ Hok _ _ _ Hdec) as [Hv Henc].
  exists v. split; [exact Hv|].
  rewrite range_encrypt_element_result by exact Hv. exact Henc.
Qed.

Lemma small_range_encryption_onto_witness :
  exists v, 5 <= v <= 8 /\
            snd (@range_encrypt_element sample_host v 5 8 77 (sample_world 5 8 5))
            = inr 7.
Proof.
  apply (@small_range_encryption_onto sample_host 7 5 8 77 (sample_world 5 8 5));
    unfold is_int64, PG_INT64_MIN, PG_INT64_MAX; lia.
Defined.

(** X6.  On every range with bounds in [int64], the full 64-bit range
    included, a value returned by [range_encrypt_element] or by
    [range_decrypt_element] lies between [minval] and [maxval]. *)
Theorem returned_value_within_bounds {host : Host}
        (v minval maxval crypt_key c : Z) (w : world) :
  is_int64 minval -> is_int64 maxval ->
  snd (range_encrypt_element v minval maxval crypt_key w) = inr c \/
  snd (range_decrypt_element v minval maxval crypt_key w) = inr c ->
  minval <= c <= maxval.
Proof.
  intros Hmin Hmax [Hrun|Hrun].
  - apply range_encrypt_element_success in Hrun. destruct Hrun as [Hv Hrun].
    assert (Hle : minval <= maxval) by lia.
    exact (cycle_walking_cipher_result_in_range _ _ _ _ _ _ Hmin Hmax Hle Hrun).
  - apply range_decrypt_element_success in Hrun. destruct Hrun as [Hv Hrun].
    assert (Hle : minval <= maxval) by lia.
    exact (cycle_walking_cipher_result_in_range _ _ _ _ _ _ Hmin Hmax Hle Hrun).
Qed.

Lemma returned_value_within_bounds_witness :
  PG_INT64_MIN <= PG_INT64_MIN + 1 <= PG_INT64_MAX.
Proof.
  apply (@returned_value_within_bounds sample_host (PG_INT64_MIN + 4)
           PG_INT64_MIN PG_INT64_MAX 77 (PG_INT64_MIN + 1) (sample_world 0 999 0)).
  - unfold is_int64, PG_INT64_MIN, PG_INT64_MAX. lia.
  - unfold is_int64, PG_INT64_MIN, PG_INT64_MAX. lia.
  - left. vm_compute. reflexivity.
Defined.

(** X7.  On a range of a single value, [minval = maxval = v], both
    [range_encrypt_element] and [range_decrypt_element] return [v]. *)
Theorem single_value_range_fixed {host : Host} (v crypt_key : Z) (w : world) :
  is_int64 v ->
  snd (range_encrypt_element v v v crypt_key w) = inr v /\
  snd (range_decrypt_element v v v crypt_key w) = inr v.
Proof.
  intros Hv.
  assert (Hok : representable_range v v).
  { assert (Hsize : v - v + 1 < 2 ^ 64) by lia.
    exact (conj Hv (conj Hv (conj (Z.le_refl v) Hsize))). }
  assert (Hsmall : v - v + 1 <= 2 ^ 20) by lia.
  assert (Hin : v <= v <= v) by lia.
  destruct (range_encrypt_returns v v v crypt_key w Hok Hin Hsmall) as [c Henc].
  destruct (range_decrypt_returns v v v crypt_key w Hok Hin Hsmall) as [c' Hdec].
  destruct (encrypt_success_decrypts _ _ _ Hok _ _ _ Henc) as [Hc _].
  destruct (decrypt_success_encrypts _ _ _ Hok _ _ _ Hdec) as [Hc' _].
  assert (c = v) by lia. assert (c' = v) by lia. subst c c'.
  split; assumption.
Qed.

Lemma single_value_range_fixed_witness :
  snd (@range_encrypt_element sample_host 7 7 7 77 (sample_world 0 999 0)) = inr 7 /\
  snd (@range_decrypt_element sample_host 7 7 7 77 (sample_world 0 999 0)) = inr 7.
Proof.
  apply (@single_value_range_fixed sample_host 7 77 (sample_world 0 999 0)).
  unfold is_int64, PG_INT64_MIN, PG_INT64_MAX. lia.
Defined.

(** ** The range validations on all bounds *)

Lemma check_sequence_range_value (minv maxv : Z) :
  is_int64 minv -> is_int64 maxv ->
  check_sequence_range minv maxv
  = ((maxv - minv >=? 3) || (maxv - minv <? PG_INT64_MIN), false).
Proof.
  unfold is_int64, PG_INT64_MIN, PG_INT64_MAX. intros Hmin Hmax.
  unfold check_sequence_range.
  destruct (Z.gtb_spec minv 0) as [Hpos|Hnpos].
  - rewrite int64_add_exact by (unfold is_int64, PG_INT64_MIN, PG_INT64_MAX; lia).
    assert (Hneg : (minv <? 0) = false) by (apply Z.ltb_ge; lia). rewrite Hneg.
    unfold ov_bind, ov_ret.
    destruct (Z.ltb_spec maxv (PG_INT64_MIN + minv)) as [Hfar|Hnear];
      unfold PG_INT64_MIN in *.
    + assert (Hunder : (maxv - minv <? - 0x7FFFFFFFFFFFFFFF - 1) = true)
        by (apply Z.ltb_lt; lia).
      rewrite Hunder. repeat rewrite orb_true_r. reflexivity.
    + assert (Hunder : (maxv - minv <? - 0x7FFFFFFFFFFFFFFF - 1) = false)
        by (apply Z.ltb_ge; lia).
      rewrite Hunder.
      rewrite int64_sub_exact
        by (unfold is_int64, PG_INT64_MIN, PG_INT64_MAX in *; lia).
      repeat rewrite orb_false_r. reflexivity.
  - assert (Hunder : (maxv - minv <? - 0x7FFFFFFFFFFFFFFF - 1) = false)
      by (apply Z.ltb_ge; lia).
    rewrite Hunder.
    unfold ov_bind at 1. unfold ov_ret at 1.
    destruct (Z.ltb_spec minv 0) as [Hneg|Hzero].
    + rewrite int64_add_exact by (unfold is_int64, PG_INT64_MIN, PG_INT64_MAX; lia).
      unfold ov_bind, ov_ret.
      destruct (Z.gtb_spec maxv (PG_INT64_MAX + minv)) as [Hfar|Hnear];
        unfold PG_INT64_MAX in *.
      * assert (Hwide : (maxv - minv >=? 3) = true) by (apply Z.geb_le; lia).
        rewrite Hwide. reflexivity.
      * rewrite int64_sub_exact
          by (unfold is_int64, PG_INT64_MIN, PG_INT64_MAX in *; lia).
        repeat rewrite orb_false_r. reflexivity.
    + rewrite int64_sub_exact by (unfold is_int64, PG_INT64_MIN, PG_INT64_MAX; lia).
      unfold ov_bind, ov_ret. repeat rewrite orb_false_r. reflexivity.
Qed.

(** X8.  For all bounds in [int64], [check_sequence_range] evaluates no
    signed operation that wraps, and it returns true exactly when
    [maxv - minv] is at least 3 or is below the smallest [int64]: besides
    the ranges of at least 4 elements it also accepts the inverted ranges
    whose difference underflows. *)
Theorem check_sequence_range_decides (minv maxv : Z) :
  is_int64 minv -> is_int64 maxv ->
  snd (check_sequence_range minv maxv) = false /\
  (fst (check_sequence_range minv maxv) = true <->
   3 <= maxv - minv \/ maxv - minv < PG_INT64_MIN).
Proof.
  intros Hmin Hmax. rewrite check_sequence_range_value by assumption.
  split; [reflexivity|].
  rewrite fst_pair_eq, orb_true_iff, Z.geb_le, Z.ltb_lt. reflexivity.
Qed.

Lemma check_sequence_range_decides_witness :
  snd (check_sequence_range PG_INT64_MAX (PG_INT64_MIN + 5)) = false /\
  (fst (check_sequence_range PG_INT64_MAX (PG_INT64_MIN + 5)) = true <->
   3 <= PG_INT64_MIN + 5 - PG_INT64_MAX \/
   PG_INT64_MIN + 5 - PG_INT64_MAX < PG_INT64_MIN).
Proof.
  apply (check_sequence_range_decides PG_INT64_MAX (PG_INT64_MIN + 5));
    unfold is_int64, PG_INT64_MIN, PG_INT64_MAX; lia.
Defined.

Lemma reverse_permute_too_short_value (minval maxval : Z) :
  is_int64 minval -> is_int64 maxval -> minval <= maxval ->
  fst (reverse_permute_too_short minval maxval)
  = (maxval - minval <? 4) || (PG_INT64_MAX <? maxval - minval).
Proof.
  unfold is_int64, PG_INT64_MIN, PG_INT64_MAX. intros Hmin Hmax Hle.
  unfold reverse_permute_too_short, int64_sub, ov_bind, ov_ret. cbn [fst].
  destruct (to_int64_cases (maxval - minval) ltac:(lia)) as [[Hlt ->]|[Hge ->]].
  - assert (Hfit : (0x7FFFFFFFFFFFFFFF <? maxval - minval) = false)
      by (apply Z.ltb_ge; lia).
    rewrite Hfit, orb_false_r. reflexivity.
  - assert (Hwide : (0x7FFFFFFFFFFFFFFF <? maxval - minval) = true)
      by (apply Z.ltb_lt; lia).
    rewrite Hwide, orb_true_r. apply Z.ltb_lt. lia.
Qed.

(** X9.  For a sequence with [minval <= maxval], [reverse_permute] fails
    with [RangeTooSmall] exactly when [maxval - minval] is below 4 or above
    the largest [int64]: the sequences of 4 elements and the sequences
    whose difference overflows, which [permute_nextval] encrypts, cannot be
    decrypted. *)
Theorem reverse_permute_size_test {host : Host}
        (seq_oid value crypt_key minval maxval : Z) (w : world) :
  pg_sequence_parameters (db w) seq_oid = Some (minval, maxval) ->
  is_int64 minval -> is_int64 maxval -> minval <= maxval ->
  (snd (reverse_permute seq_oid value crypt_key w) = inl RangeTooSmall <->
   maxval - minval < 4 \/ PG_INT64_MAX < maxval - minval).
Proof.
  intros Hparams Hmin Hmax Hle.
  pose proof (reverse_permute_too_short_value minval maxval Hmin Hmax Hle) as Htest.
  destruct (fst (reverse_permute_too_short minval maxval)) eqn:Eshort.
  - rewrite (reverse_permute_too_short_error _ _ minval maxval _ Hparams value Eshort).
    rewrite snd_pair_eq. symmetry in Htest.
    apply orb_true_iff in Htest. rewrite !Z.ltb_lt in Htest.
    split; [intros _; exact Htest | reflexivity].
  - symmetry in Htest. apply orb_false_iff in Htest. rewrite !Z.ltb_ge in Htest.
    split; [|lia].
    intros Hrej. exfalso.
    exact (reverse_permute_not_too_short _ _ minval maxval _ Hparams value Eshort Hrej).
Qed.

Lemma reverse_permute_size_test_witness :
  (snd (@reverse_permute sample_host 1 0 77 (sample_world (-1) PG_INT64_MAX 0))
   = inl RangeTooSmall <->
   PG_INT64_MAX - -1 < 4 \/ PG_INT64_MAX < PG_INT64_MAX - -1).
Proof.
  apply (@reverse_permute_size_test sample_host 1 0 77 (-1) PG_INT64_MAX
           (sample_world (-1) PG_INT64_MAX 0));
    [reflexivity | | | ]; unfold is_int64, PG_INT64_MIN, PG_INT64_MAX; lia.
Defined.

(** ** The sequence entry points *)

(** X10.  [permute_nextval] draws the next value of the sequence before it
    checks that value: when the sequence passes the range validation and
    yields a value outside its bounds, the call fails with
    [ValueOutOfRange], no cipher run is made, but the sequence has been
    advanced. *)
Theorem permute_nextval_draws_before_checking {host : Host}
        (seq_oid crypt_key minval maxval v : Z) (w : world) (d : Database) :
  pg_sequence_parameters (db w) seq_oid = Some (minval, maxval) ->
  fst (check_sequence_range minval maxval) = true ->
  nextval_oid (db w) seq_oid = Some (v, d) ->
  v < minval \/ v > maxval ->
  permute_nextval seq_oid crypt_key w
  = ({| db := d; cipher_runs := cipher_runs w |}, inl ValueOutOfRange).
Proof.
  intros Hparams Hlong Hnext Hout.
  rewrite (permute_nextval_run _ _ minval maxval _ Hparams v d Hlong Hnext).
  cbv zeta. rewrite outside_true by exact Hout. reflexivity.
Qed.

Lemma permute_nextval_draws_before_checking_witness :
  @permute_nextval sample_host 1 77 (sample_world 10 20 5)
  = ({| db := PlainSequence 10 20 6 : @Database sample_host;
        cipher_runs := cipher_runs (sample_world 10 20 5) |},
     inl ValueOutOfRange).
Proof.
  apply (@permute_nextval_draws_before_checking sample_host 1 77 10 20 5
           (sample_world 10 20 5) (PlainSequence 10 20 6));
    [reflexivity | reflexivity | reflexivity | left; lia].
Defined.

(** X11.  For a sequence with [4 <= maxval - minval] and at most 2^62
    values, [reverse_permute] undoes [permute_nextval]: when
    [permute_nextval] draws [v] from the sequence and returns [c],
    [reverse_permute] on [c] with the same key returns [v], in any state of
    the database where the sequence has the same bounds. *)
Theorem reverse_permute_undoes_permute_nextval {host : Host}
        (seq_oid crypt_key minval maxval v c : Z) (w w' : world) (d : Database) :
  pg_sequence_parameters (db w) seq_oid = Some (minval, maxval) ->
  pg_sequence_parameters (db w') seq_oid = Some (minval, maxval) ->
  is_int64 minval -> is_int64 maxval ->
  4 <= maxval - minval < 2 ^ 62 ->
  nextval_oid (db w) seq_oid = Some (v, d) ->
  snd (permute_nextval seq_oid crypt_key w) = inr c ->
  snd (reverse_permute seq_oid c crypt_key w') = inr v.
Proof.
  intros Hparams Hparams' Hmin Hmax Hsize Hnext Hrun.
  assert (Hle : minval <= maxval) by lia.
  assert (Hfits : maxval - minval <= PG_INT64_MAX) by (unfold PG_INT64_MAX; lia).
  pose proof (representable_of_int64_difference _ _ Hmin Hmax Hle Hfits) as Hok.
  assert (Hlong : fst (check_sequence_range minval maxval) = true).
  { rewrite check_sequence_range_value, fst_pair_eq by assumption.
    apply orb_true_iff. left. apply Z.geb_le. lia. }
  assert (Hshort : fst (reverse_permute_too_short minval maxval) = false).
  { rewrite reverse_permute_too_short_value by assumption.
    apply orb_false_iff. rewrite !Z.ltb_ge. lia. }
  clear Hfits.
  rewrite (permute_nextval_run _ _ minval maxval _ Hparams v d Hlong Hnext) in Hrun.
  cbv zeta in Hrun.
  destruct ((v <? minval) || (v >? maxval)) eqn:Eout; [discriminate|].
  rewrite snd_pair_eq in Hrun.
  apply orb_false_iff in Eout. destruct Eout as [Hlow Hhigh].
  apply Z.ltb_ge in Hlow. rewrite Z.gtb_ltb in Hhigh. apply Z.ltb_ge in Hhigh.
  assert (Hv : minval <= v <= maxval) by lia.
  pose proof (cycle_walking_cipher_in_range _ _ Hok _ _ _ _ Hv Hrun) as Hc.
  rewrite (reverse_permute_run _ _ minval maxval _ Hparams' c Hshort).
  rewrite outside_false by exact Hc. rewrite snd_pair_eq.
  exact (decrypt_encrypt _ _ Hok _ _ _ Hv Hrun).
Qed.

Lemma reverse_permute_undoes_permute_nextval_witness :
  snd (@reverse_permute sample_host 1 531 0x123456789ABCDEF0 (sample_world 0 999 1))
  = inr 0.
Proof.
  apply (@reverse_permute_undoes_permute_nextval sample_host 1 0x123456789ABCDEF0
           0 999 0 531 (sample_world 0 999 0) (sample_world 0 999 1)
           (PlainSequence 0 999 1));
    [reflexivity | reflexivity | | | | reflexivity | vm_compute; reflexivity];
    unfold is_int64, PG_INT64_MIN, PG_INT64_MAX; lia.
Defined.

(** X12.  Once a sequence passes its size test, [reverse_permute] fails
    with [ValueOutOfRange] exactly when the value is outside the bounds of
    the sequence, and then on the unchanged world; inside the bounds it
    runs the cipher once, in the decryption direction. *)
Theorem reverse_permute_value_check {host : Host}
        (seq_oid value crypt_key minval maxval : Z) (w : world) :
  pg_sequence_parameters (db w) seq_oid = Some (minval, maxval) ->
  fst (reverse_permute_too_short minval maxval) = false ->
  ((value < minval \/ value > maxval) ->
     reverse_permute seq_oid value crypt_key w = (w, inl ValueOutOfRange)) /\
  (minval <= value <= maxval ->
     snd (reverse_permute seq_oid value crypt_key w) <> inl ValueOutOfRange /\
     cipher_runs (fst (reverse_permute seq_oid value crypt_key w))
     = CipherCall minval maxval value (to_uint64 crypt_key) 1 :: cipher_runs w).
Proof.
  intros Hparams Hlong.
  rewrite (reverse_permute_run _ _ minval maxval _ Hparams value Hlong).
  split.
  - intros Hout. rewrite outside_true by exact Hout. reflexivity.
  - intros Hin. rewrite outside_false by exact Hin.
    rewrite snd_pair_eq, fst_pair_eq. split; [|reflexivity].
    intros Herr. apply cycle_walking_cipher_errors in Herr. discriminate.
Qed.

Lemma reverse_permute_value_check_witness :
  ((1000 < 0 \/ 1000 > 999) ->
     @reverse_permute sample_host 1 1000 77 (sample_world 0 999 0)
     = (sample_world 0 999 0, inl ValueOutOfRange)) /\
  (0 <= 1000 <= 999 ->
     snd (@reverse_permute sample_host 1 1000 77 (sample_world 0 999 0))
     <> inl ValueOutOfRange /\
     cipher_runs (fst (@reverse_permute sample_host 1 1000 77 (sample_world 0 999 0)))
     = CipherCall 0 999 1000 (to_uint64 77) 1 :: cipher_runs (sample_world 0 999 0)).
Proof.
  apply (@reverse_permute_value_check sample_host 1 1000 77 0 999 (sample_world 0 999 0));
    reflexivity.
Defined.

(** X13.  [reverse_permute], [range_encrypt_element] and
    [range_decrypt_element] never change the database, whatever they
    return; [permute_nextval] leaves it as it was when the sequence fails
    the range validation. *)
Theorem database_left_untouched {host : Host}
        (seq_oid v minval maxval crypt_key : Z) (w : world) :
  db (fst (reverse_permute seq_oid v crypt_key w)) = db w /\
  db (fst (range_encrypt_element v minval maxval crypt_key w)) = db w /\
  db (fst (range_decrypt_element v minval maxval crypt_key w)) = db w /\
  (forall lo hi,
     pg_sequence_parameters (db w) seq_oid = Some (lo, hi) ->
     fst (check_sequence_range lo hi) = false ->
     db (fst (permute_nextval seq_oid crypt_key w)) = db w).
Proof.
  split; [|split; [|split]].
  - unfold reverse_permute, bind, sequence_parameters.
    destruct (pg_sequence_parameters (db w) seq_oid) as [[lo hi]|]; [|reflexivity].
    cbn [fst snd].
    destruct (fst (reverse_permute_too_short lo hi)); [reflexivity|].
    destruct ((v <? lo) || (v >? hi)); [reflexivity|].
    unfold run_cipher. rewrite fst_pair_eq. reflexivity.
  - unfold range_encrypt_element.
    destruct ((v <? minval) || (v >? maxval)); [reflexivity|].
    unfold run_cipher. rewrite fst_pair_eq. reflexivity.
  - unfold range_decrypt_element.
    destruct ((v <? minval) || (v >? maxval)); [reflexivity|].
    unfold run_cipher. rewrite fst_pair_eq. reflexivity.
  - intros lo hi Hparams Hshort.
    rewrite (permute_nextval_too_short _ _ lo hi _ Hparams Hshort). reflexivity.
Qed.

(** X14.  Two calls of [permute_nextval] on a sequence of at most 2^62
    values, with the same key, that draw different values from the sequence
    never return the same value: the values handed out are unique as long
    as the values of the sequence are. *)
Theorem permute_nextval_unique {host : Host}
        (seq_oid crypt_key minval maxval v v' c : Z) (w w' : world) (d d' : Database) :
  pg_sequence_parameters (db w) seq_oid = Some (minval, maxval) ->
  pg_sequence_parameters (db w') seq_oid = Some (minval, maxval) ->
  moderate_range minval maxval ->
  nextval_oid (db w) seq_oid = Some (v, d) ->
  nextval_oid (db w') seq_oid = Some (v', d') ->
  snd (permute_nextval seq_oid crypt_key w) = inr c ->
  snd (permute_nextval seq_oid crypt_key w') = inr c ->
  v = v'.
Proof.
  intros Hparams Hparams' Hmoderate Hnext Hnext' Hrun Hrun'.
  pose proof (moderate_range_representable _ _ Hmoderate) as Hok.
  assert (Hdrawn : forall u x (e : Database),
            pg_sequence_parameters (db u) seq_oid = Some (minval, maxval) ->
            nextval_oid (db u) seq_oid = Some (x, e) ->
            snd (permute_nextval seq_oid crypt_key u) = inr c ->
            cycle_walking_cipher minval maxval c (to_uint64 crypt_key) 1 = inr x).
  { intros u x e Hp Hn Hr.
    destruct (fst (check_sequence_range minval maxval)) eqn:Elong.
    - rewrite (permute_nextval_run _ _ minval maxval _ Hp x e Elong Hn) in Hr.
      cbv zeta in Hr.
      destruct ((x <? minval) || (x >? maxval)) eqn:Eout; [discriminate|].
      rewrite snd_pair_eq in Hr.
      apply orb_false_iff in Eout. destruct Eout as [Hlow Hhigh].
      apply Z.ltb_ge in Hlow. rewrite Z.gtb_ltb in Hhigh. apply Z.ltb_ge in Hhigh.
      assert (Hx : minval <= x <= maxval) by lia.
      exact (decrypt_encrypt _ _ Hok _ _ _ Hx Hr).
    - rewrite (permute_nextval_too_short _ _ minval maxval _ Hp Elong) in Hr.
      discriminate. }
  pose proof (Hdrawn w v d Hparams Hnext Hrun) as Hback.
  pose proof (Hdrawn w' v' d' Hparams' Hnext' Hrun') as Hback'.
  congruence.
Qed.

Lemma permute_nextval_unique_witness :
  snd (@permute_nextval sample_host 1 0x123456789ABCDEF0 (sample_world 0 999 0))
  = inr 531 /\
  0 = 0.
Proof.
  split; [vm_compute; reflexivity|].
  apply (@permute_nextval_unique sample_host 1 0x123456789ABCDEF0 0 999 0 0 531
           (sample_world 0 999 0) (sample_world 0 999 0)
           (PlainSequence 0 999 1) (PlainSequence 0 999 1));
    [reflexivity | reflexivity | | reflexivity | reflexivity
     | vm_compute; reflexivity | vm_compute; reflexivity].
  unfold moderate_range, is_int64, PG_INT64_MIN, PG_INT64_MAX. lia.
Defined.

(** ** The parts of the cipher *)

(** X15.  The key scrambling hashes the two 32-bit lanes of the key
    separately and puts the hash of the high lane in the high 32 bits and
    the hash of the low lane in the low 32 bits, without overlap: for a
    mixing function that returns 32-bit values the scrambled key is
    [hash(high) * 2^32 + hash(low)], a 64-bit value. *)
Theorem scramble_key_lanes {host : Host} (crypt_key : Z) :
  0 <= crypt_key < 2 ^ 64 ->
  0 <= hash_uint32 (crypt_key mod 2 ^ 32) < 2 ^ 32 ->
  0 <= hash_uint32 (crypt_key / 2 ^ 32) < 2 ^ 32 ->
  scramble_key crypt_key
  = hash_uint32 (crypt_key / 2 ^ 32) * 2 ^ 32 + hash_uint32 (crypt_key mod 2 ^ 32) /\
  0 <= scramble_key crypt_key < 2 ^ 64.
Proof.
  intros Hkey Hlow Hhigh. unfold scramble_key.
  change 0xffffffff with (Z.ones 32).
  rewrite !Z.land_ones, Z.shiftr_div_pow2 by lia.
  assert (Hlane : 0 <= crypt_key / 2 ^ 32 < 2 ^ 32).
  { split; [apply Z.div_pos; lia | apply Z.div_lt_upper_bound; lia]. }
  rewrite (Z.mod_small (crypt_key / 2 ^ 32)) by exact Hlane.
  rewrite (to_uint32_small (crypt_key mod 2 ^ 32))
    by (apply Z.mod_pos_bound; lia).
  rewrite (to_uint32_small (crypt_key / 2 ^ 32)) by exact Hlane.
  set (low := hash_uint32 (crypt_key mod 2 ^ 32)) in *.
  set (high := hash_uint32 (crypt_key / 2 ^ 32)) in *.
  rewrite (to_uint64_small low), (to_uint64_small high) by lia.
  assert (Hshift : Z.shiftl high 32 = high * 2 ^ 32) by (apply Z.shiftl_mul_pow2; lia).
  rewrite (to_uint64_small (Z.shiftl high 32)) by (rewrite Hshift; lia).
  rewrite Z.lor_comm, shiftl_lor_add by lia.
  split; [reflexivity | lia].
Qed.

Lemma scramble_key_lanes_witness :
  @scramble_key sample_host 0x123456789ABCDEF0
  = @hash_uint32 sample_host (0x123456789ABCDEF0 / 2 ^ 32) * 2 ^ 32
    + @hash_uint32 sample_host (0x123456789ABCDEF0 mod 2 ^ 32) /\
  0 <= @scramble_key sample_host 0x123456789ABCDEF0 < 2 ^ 64.
Proof.
  apply (@scramble_key_lanes sample_host 0x123456789ABCDEF0);
    [lia | split; vm_compute; [discriminate | reflexivity]
         | split; vm_compute; [discriminate | reflexivity]].
Defined.

Lemma attempt_unfold {host : Host} (hsz crypt_key direction : Z) (p : Z * Z) :
  attempt hsz crypt_key direction p
  = swap_pair (keyed_rounds hsz (subkeys crypt_key hsz direction) p).
Proof. reflexivity. Qed.

Lemma network_then_swap {host : Host} (hsz crypt_key direction : Z) (s : halves) :
  halves_pair (swap_halves (feistel_network hsz (2 ^ hsz - 1) crypt_key direction s))
  = attempt hsz crypt_key direction (halves_pair s).
Proof. rewrite feistel_network_pair, halves_pair_swap, attempt_unfold. reflexivity. Qed.

(** X16.  Run on the halves a forward attempt leaves for the next walk
    ([l1 = r2; r1 = l2]), the network with the subkeys in reverse order
    leaves the halves the forward attempt started from, and conversely,
    for a half-block width of at most 31 and starting halves that both fit
    in [hsz] bits: one attempt is a permutation of the working domain, and
    the other direction is its inverse. *)
Theorem feistel_network_reversed {host : Host} (hsz crypt_key : Z) (s : halves) :
  1 <= hsz <= 31 ->
  0 <= l1 s < 2 ^ hsz -> 0 <= r1 s < 2 ^ hsz ->
  let mask := half_block_mask hsz in
  let forward := fun t => swap_halves (feistel_network hsz mask crypt_key 0 t) in
  let backward := fun t => swap_halves (feistel_network hsz mask crypt_key 1 t) in
  halves_pair (backward (forward s)) = halves_pair s /\
  halves_pair (forward (backward s)) = halves_pair s.
Proof.
  intros Hh Hl Hr mask forward backward. subst forward backward mask.
  rewrite half_block_mask_ones by lia.
  assert (Hs : in_block hsz (halves_pair s)) by (split; assumption).
  rewrite !network_then_swap.
  split.
  - apply attempt_decrypt_encrypt; [lia | exact Hs].
  - apply attempt_encrypt_decrypt; [lia | exact Hs].
Qed.

Lemma feistel_network_reversed_witness :
  let s := {| l1 := 3; r1 := 17; l2 := 0; r2 := 0 |} in
  let mask := half_block_mask 5 in
  let forward := fun t => swap_halves (@feistel_network sample_host 5 mask 77 0 t) in
  let backward := fun t => swap_halves (@feistel_network sample_host 5 mask 77 1 t) in
  halves_pair (backward (forward s)) = halves_pair s /\
  halves_pair (forward (backward s)) = halves_pair s.
Proof.
  apply (@feistel_network_reversed sample_host 5 77
           {| l1 := 3; r1 := 17; l2 := 0; r2 := 0 |});
    cbn [l1 r1]; lia.
Defined.

(** ** What the entry points return *)

(** X17.  On the full 64-bit range, [minval = PG_INT64_MIN] and
    [maxval = PG_INT64_MAX], [range_encrypt_element] and
    [range_decrypt_element] return, for every [int64] value and every key,
    one of the four smallest values of the range, and never fail. *)
Theorem full_range_four_results {host : Host} (v crypt_key : Z) (w : world) :
  is_int64 v ->
  (exists c, snd (range_encrypt_element v PG_INT64_MIN PG_INT64_MAX crypt_key w) = inr c /\
             PG_INT64_MIN <= c <= PG_INT64_MIN + 3) /\
  (exists c, snd (range_decrypt_element v PG_INT64_MIN PG_INT64_MAX crypt_key w) = inr c /\
             PG_INT64_MIN <= c <= PG_INT64_MIN + 3).
Proof.
  intros Hv. unfold is_int64 in Hv.
  rewrite range_encrypt_element_result, range_decrypt_element_result by exact Hv.
  destruct (full_range_cipher v (to_uint64 crypt_key) 0) as (q & _ & Hq & Henc).
  destruct (full_range_cipher v (to_uint64 crypt_key) 1) as (q' & _ & Hq' & Hdec).
  split; eexists; (split; [eassumption | lia]).
Qed.

Lemma full_range_four_results_witness :
  (exists c, snd (@range_encrypt_element sample_host 12345 PG_INT64_MIN PG_INT64_MAX 77
                    (sample_world 0 999 0)) = inr c /\
             PG_INT64_MIN <= c <= PG_INT64_MIN + 3) /\
  (exists c, snd (@range_decrypt_element sample_host 12345 PG_INT64_MIN PG_INT64_MAX 77
                    (sample_world 0 999 0)) = inr c /\
             PG_INT64_MIN <= c <= PG_INT64_MIN + 3).
Proof.
  apply (@full_range_four_results sample_host 12345 77 (sample_world 0 999 0)).
  unfold is_int64, PG_INT64_MIN, PG_INT64_MAX. lia.
Defined.

(** X18.  A value returned by [permute_nextval] or by [reverse_permute]
    lies between the bounds of the sequence, for every sequence with bounds
    in [int64]. *)
Theorem sequence_results_within_bounds {host : Host}
        (seq_oid value crypt_key minval maxval c : Z) (w : world) :
  pg_sequence_parameters (db w) seq_oid = Some (minval, maxval) ->
  is_int64 minval -> is_int64 maxval ->
  snd (permute_nextval seq_oid crypt_key w) = inr c \/
  snd (reverse_permute seq_oid value crypt_key w) = inr c ->
  minval <= c <= maxval.
Proof.
  intros Hparams Hmin Hmax [Hrun|Hrun].
  - destruct (fst (check_sequence_range minval maxval)) eqn:Elong.
    + destruct (nextval_oid (db w) seq_oid) as [[v d]|] eqn:Enext.
      * rewrite (permute_nextval_run _ _ minval maxval _ Hparams v d Elong Enext)
          in Hrun.
        cbv zeta in Hrun.
        destruct ((v <? minval) || (v >? maxval)) eqn:Eout; [discriminate|].
        rewrite snd_pair_eq in Hrun.
        apply orb_false_iff in Eout. destruct Eout as [Hlow Hhigh].
        apply Z.ltb_ge in Hlow. rewrite Z.gtb_ltb in Hhigh. apply Z.ltb_ge in Hhigh.
        assert (Hle : minval <= maxval) by lia.
        exact (cycle_walking_cipher_result_in_range _ _ _ _ _ _ Hmin Hmax Hle Hrun).
      * unfold permute_nextval, bind, sequence_parameters in Hrun.
        rewrite Hparams in Hrun. cbn [fst snd] in Hrun.
        rewrite Elong in Hrun. cbn [negb] in Hrun.
        unfold sequence_nextval in Hrun. rewrite Enext in Hrun. discriminate.
    + rewrite (permute_nextval_too_short _ _ minval maxval _ Hparams Elong) in Hrun.
      discriminate.
  - destruct (fst (reverse_permute_too_short minval maxval)) eqn:Eshort.
    + rewrite (reverse_permute_too_short_error _ _ minval maxval _ Hparams value Eshort)
        in Hrun.
      discriminate.
    + rewrite (reverse_permute_run _ _ minval maxval _ Hparams value Eshort) in Hrun.
      destruct ((value <? minval) || (value >? maxval)) eqn:Eout; [discriminate|].
      rewrite snd_pair_eq in Hrun.
      apply orb_false_iff in Eout. destruct Eout as [Hlow Hhigh].
      apply Z.ltb_ge in Hlow. rewrite Z.gtb_ltb in Hhigh. apply Z.ltb_ge in Hhigh.
      assert (Hle : minval <= maxval) by lia.
      exact (cycle_walking_cipher_result_in_range _ _ _ _ _ _ Hmin Hmax Hle Hrun).
Qed.

Lemma sequence_results_within_bounds_witness :
  snd (@permute_nextval sample_host 1 0x123456789ABCDEF0 (sample_world 0 999 0))
  = inr 531 /\
  0 <= 531 <= 999.
Proof.
  split; [vm_compute; reflexivity|].
  apply (@sequence_results_within_bounds sample_host 1 0 0x123456789ABCDEF0 0 999 531
           (sample_world 0 999 0));
    [reflexivity | | | left; vm_compute; reflexivity];
    unfold is_int64, PG_INT64_MIN, PG_INT64_MAX; lia.
Defined.
